(** * AES-SIV (RFC 5297) over AES-CMAC (RFC 4493): a shallow embedding

    The Go packages [common], [cmac] and [siv] are embedded as Rocq
    functions, one per Go function, with the Go names.

    - A Go [byte] is a [Z]; the operators [^], [&], [|], [<<], [>>] are
      [Z.lxor], [Z.land], [Z.lor], [Z.shiftl], [Z.shiftr], and the 8-bit
      wrap-around of [<<] is written out as [mod 256].
    - A [[]byte] is a [list Z]; [nil] and the empty slice are both [[]].
    - A function that can panic returns an [option]: [None] is the panic.
    - A Go [(T, error)] result is a [result T] where the value is unused on
      error, and a pair where the source returns both components.
    - A method with a pointer receiver returns the new receiver; a method
      with a value receiver works on a copy and returns nothing of it.
    - The 128-bit block cipher (crypto/aes) is a collaborator of the
      program: it is a parameter [AES] of the development. *)

From Stdlib Require Import ZArith List Bool Lia PeanoNat.
Import ListNotations.
Local Open Scope Z_scope.

#[local] Arguments Z.shiftl : simpl never.
#[local] Arguments Z.shiftr : simpl never.
#[local] Arguments Z.land : simpl never.
#[local] Arguments Z.lor : simpl never.
#[local] Arguments Z.lxor : simpl never.
#[local] Arguments Z.modulo : simpl never.
#[local] Arguments Z.testbit : simpl never.

(** ** Go results, errors and panics *)

Inductive error : Set :=
| errUnsupportedKeySize        (* cmac: "key size is not supported" *)
| errAlreadyFinished           (* cmac: "the processing has been finalized, reset call is needed" *)
| errKeySizeNotSupported       (* siv: "key size not supported" *)
| errInvalidCiphertextLength   (* siv: "invalid ciphertext length" *)
| errIntegrityError            (* siv: "integrity error" *)
| KeySizeError (n : nat).      (* crypto/aes: invalid key size *)

Inductive result (A : Type) : Type :=
| Ok (a : A)
| Err (e : error).
Arguments Ok {A} a.
Arguments Err {A} e.

Definition bind {A B : Type} (x : option A) (f : A -> option B) : option B :=
  match x with
  | Some a => f a
  | None => None
  end.

Notation "x <- e ;; k" := (bind e (fun x => k))
  (at level 61, e at next level, right associativity).

(** ** The Go standard library pieces the program calls *)

Module cipher.

(** [cipher.Block] with a 16-byte block: the permutation of one block. *)
Record Block : Type := {
  encryptBlock : list Z -> list Z;
  encryptBlock_length : forall src, length (encryptBlock src) = 16%nat
}.

(** [b.Encrypt(dst, src)]: panics on a short [src] or [dst]; writes the
    encryption of [src[:16]] to [dst[:16]].  Returns the new [dst]. *)
Definition Encrypt (b : Block) (dst src : list Z) : option (list Z) :=
  if (length src <? 16)%nat || (length dst <? 16)%nat then None
  else Some (encryptBlock b (firstn 16 src) ++ skipn 16 dst).

(** The counter of CTR mode: a big-endian increment with wrap-around,
    from the last byte to the first.  The boolean is the carry out. *)
Fixpoint incr (ctr : list Z) : list Z * bool :=
  match ctr with
  | [] => ([], true)
  | x :: rest =>
      let '(r, carry) := incr rest in
      if carry then (((x + 1) mod 256) :: r, (x + 1) mod 256 =? 0)
      else (x :: r, false)
  end.

Fixpoint keyStream (b : Block) (ctr : list Z) (nblocks : nat) : list Z :=
  match nblocks with
  | O => []
  | S n => encryptBlock b ctr ++ keyStream b (fst (incr ctr)) n
  end.

Fixpoint xorBytes (src ks : list Z) : list Z :=
  match src, ks with
  | x :: src', k :: ks' => Z.lxor x k :: xorBytes src' ks'
  | _, _ => []
  end.

(** A CTR stream before its first use. *)
Record Stream : Type := { block : Block; iv : list Z }.

(** [cipher.NewCTR(block, iv)]: panics unless [len(iv)] is the block size. *)
Definition NewCTR (b : Block) (iv : list Z) : option Stream :=
  if (length iv =? 16)%nat then Some {| block := b; iv := iv |} else None.

(** [s.XORKeyStream(dst, src)] on a fresh stream: panics when [dst] is
    shorter than [src]; returns the new [dst]. *)
Definition XORKeyStream (s : Stream) (dst src : list Z) : option (list Z) :=
  if (length dst <? length src)%nat then None
  else
    let ks := keyStream (block s) (iv s) (S (length src / 16)) in
    Some (xorBytes src ks ++ skipn (length src) dst).

End cipher.

Module aes.

(** [aes.NewCipher(key)]: the key must be 16, 24 or 32 bytes long. *)
Definition NewCipher (AES : list Z -> cipher.Block) (key : list Z)
  : result cipher.Block :=
  match length key with
  | 16%nat | 24%nat | 32%nat => Ok (AES key)
  | n => Err (KeySizeError n)
  end.

End aes.

Module subtle.

Fixpoint orXor (x y : list Z) (v : Z) : Z :=
  match x, y with
  | a :: x', b :: y' => orXor x' y' (Z.lor v (Z.lxor a b))
  | _, _ => v
  end.

(** [subtle.ConstantTimeCompare(x, y)]: 1 when the slices are equal. *)
Definition ConstantTimeCompare (x y : list Z) : Z :=
  if (length x =? length y)%nat
  then (if orXor x y 0 =? 0 then 1 else 0)
  else 0.

End subtle.

(** ** package common *)

Module common.

Definition Msb : Z := 128.
Definition blockSize : nat := 16.
Definition firstPaddingOctet : Z := 128.

(** The loop [for i := range a { result[i] = a[i] ^ b[i] }]. *)
Fixpoint xorLoop (a b : list Z) : list Z :=
  match a, b with
  | x :: a', y :: b' => Z.lxor x y :: xorLoop a' b'
  | _, _ => []
  end.

Definition Xor (a b : list Z) : option (list Z) :=
  if (length a =? length b)%nat then Some (xorLoop a b) else None.

(** The loop of [ShiftLeft] runs from the last byte to the first and
    carries [bit] from byte [i+1] to byte [i]: on [data[i:]] it yields
    the bytes [result[i:]] and the [bit] left for byte [i-1]. *)
Fixpoint shiftLoop (data : list Z) : list Z * Z :=
  match data with
  | [] => ([], 0)
  | x :: rest =>
      let '(r, bit) := shiftLoop rest in
      (Z.lor ((Z.shiftl x 1) mod 256) bit :: r, Z.shiftr (Z.land x Msb) 7)
  end.

Definition ShiftLeft (data : list Z) : list Z := fst (shiftLoop data).

Definition Padding (data : list Z) : list Z :=
  let result := data ++ [firstPaddingOctet] in
  if (length result <? blockSize)%nat
  then result ++ repeat 0 (blockSize - length result)
  else result.

End common.

(** ** package cmac *)

Module cmac.

Definition blockSize : nat := 16.

Definition zero : list Z :=
  [0; 0; 0; 0; 0; 0; 0; 0; 0; 0; 0; 0; 0; 0; 0; 0].

Definition rb : list Z :=
  [0; 0; 0; 0; 0; 0; 0; 0; 0; 0; 0; 0; 0; 0; 0; 135].

Record cmac : Type := {
  aesEncryptor : cipher.Block;
  state : list Z;
  key : list Z;
  accumulator : list Z;
  finished : bool;
  hadData : bool;
  k1 : list Z;
  k2 : list Z
}.

Definition set_state (c : cmac) (s : list Z) : cmac :=
  {| aesEncryptor := aesEncryptor c; state := s; key := key c;
     accumulator := accumulator c; finished := finished c;
     hadData := hadData c; k1 := k1 c; k2 := k2 c |}.

Definition set_accumulator (c : cmac) (a : list Z) : cmac :=
  {| aesEncryptor := aesEncryptor c; state := state c; key := key c;
     accumulator := a; finished := finished c;
     hadData := hadData c; k1 := k1 c; k2 := k2 c |}.

Definition set_finished (c : cmac) (f : bool) : cmac :=
  {| aesEncryptor := aesEncryptor c; state := state c; key := key c;
     accumulator := accumulator c; finished := f;
     hadData := hadData c; k1 := k1 c; k2 := k2 c |}.

Definition set_hadData (c : cmac) (h : bool) : cmac :=
  {| aesEncryptor := aesEncryptor c; state := state c; key := key c;
     accumulator := accumulator c; finished := finished c;
     hadData := h; k1 := k1 c; k2 := k2 c |}.

(** [func (c *cmac) writeFullBlock(block []byte)] *)
Definition cmac_writeFullBlock (c : cmac) (block : list Z) : option cmac :=
  s <- common.Xor (state c) block;;
  s' <- cipher.Encrypt (aesEncryptor c) s s;;
  Some (set_state c s').

(** The loop of [Write]: [n] rounds, each sends [accumulator[0:16]]
    through the chaining step and drops it from the accumulator. *)
Fixpoint writeLoop (n : nat) (c : cmac) : option cmac :=
  match n with
  | O => Some c
  | S n' =>
      c1 <- cmac_writeFullBlock c (firstn blockSize (accumulator c));;
      writeLoop n' (set_accumulator c1 (skipn blockSize (accumulator c1)))
  end.

(** [func (c *cmac) Write(p []byte) (n int, err error)]: the receiver
    after the call, and the pair returned. *)
Definition cmac_Write (c : cmac) (p : list Z)
  : option (cmac * (nat * option error)) :=
  if finished c then Some (c, (0%nat, Some errAlreadyFinished))
  else if (length p =? 0)%nat then Some (c, (0%nat, None))
  else
    let c := set_hadData c true in
    let c := set_accumulator c (accumulator c ++ p) in
    let numFullBlocks := (length (accumulator c) / blockSize)%nat in
    if (numFullBlocks <=? 1)%nat then Some (c, (length p, None))
    else
      c' <- writeLoop (numFullBlocks - 1) c;;
      Some (c', (length p, None)).

(** The body of [func (c cmac) Sum(b []byte) []byte], run on the copy of
    the receiver that a value receiver is: the copy as the body leaves
    it, and the slice returned. *)
Definition cmac_Sum_body (c : cmac) (b : list Z) : option (cmac * list Z) :=
  c1 <- (if hadData c then
           if (length (accumulator c) =? blockSize)%nat then
             a <- common.Xor (accumulator c) (k1 c);;
             Some (set_accumulator c a)
           else
             c' <- (if (blockSize <? length (accumulator c))%nat then
                      w <- cmac_writeFullBlock c (firstn blockSize (accumulator c));;
                      Some (set_accumulator w (skipn blockSize (accumulator w)))
                    else Some c);;
             a <- common.Xor (common.Padding (accumulator c')) (k2 c');;
             Some (set_accumulator c' a)
         else
           a <- common.Xor (common.Padding []) (k2 c);;
           Some (set_accumulator c a));;
  y <- common.Xor (accumulator c1) (state c1);;
  y' <- cipher.Encrypt (aesEncryptor c1) y y;;
  Some (set_finished c1 true, b ++ y').

(** [c.Sum(b)] as its caller sees it: the receiver is passed by value,
    so the caller's context is the one it had before the call. *)
Definition cmac_Sum (c : cmac) (b : list Z) : option (cmac * list Z) :=
  r <- cmac_Sum_body c b;;
  Some (c, snd r).

(** [func (c *cmac) generateSubKey() ([]byte, []byte)] *)
Definition cmac_generateSubKey (c : cmac) : option (list Z * list Z) :=
  l <- cipher.Encrypt (aesEncryptor c) (repeat 0 blockSize) zero;;
  let k1 := common.ShiftLeft l in
  k1 <- match l with
        | [] => None
        | l0 :: _ =>
            if Z.land l0 common.Msb =? common.Msb then common.Xor k1 rb
            else Some k1
        end;;
  let k2 := common.ShiftLeft k1 in
  k2 <- match k1 with
        | [] => None
        | k0 :: _ =>
            if Z.land k0 common.Msb =? common.Msb then common.Xor k2 rb
            else Some k2
        end;;
  Some (k1, k2).

(** [func (c *cmac) init()] *)
Definition cmac_init (c : cmac) : option cmac :=
  ks <- cmac_generateSubKey c;;
  Some {| aesEncryptor := aesEncryptor c; state := repeat 0 16;
          key := key c; accumulator := []; finished := false;
          hadData := false; k1 := fst ks; k2 := snd ks |}.

(** [func (c *cmac) Reset()] *)
Definition cmac_Reset (c : cmac) : option cmac := cmac_init c.

(** [func NewCmac(key []byte) (hash.Hash, error)] *)
Definition NewCmac (AES : list Z -> cipher.Block) (key : list Z)
  : option (result cmac) :=
  match length key with
  | 16%nat | 24%nat | 32%nat =>
      match aes.NewCipher AES key with
      | Err e => Some (Err e)
      | Ok a =>
          c <- cmac_init {| aesEncryptor := a; state := []; key := key;
                            accumulator := []; finished := false;
                            hadData := false; k1 := []; k2 := [] |};;
          Some (Ok c)
      end
  | _ => Some (Err errUnsupportedKeySize)
  end.

(** [func Sum(key, data []byte) []byte] *)
Definition Sum (AES : list Z -> cipher.Block) (key data : list Z)
  : option (list Z) :=
  r <- NewCmac AES key;;
  match r with
  | Err _ => None
  | Ok c =>
      w <- cmac_Write c data;;
      match snd (snd w) with
      | Some _ => None
      | None => r <- cmac_Sum (fst w) [];; Some (snd r)
      end
  end.

(** [func (c cmac) Size() int] *)
Definition cmac_Size (c : cmac) : nat := blockSize.

(** [func (c cmac) BlockSize() int] *)
Definition cmac_BlockSize (c : cmac) : nat := blockSize.

End cmac.

(** ** package siv *)

Module siv.

Definition blockSize : nat := 16.

Definition mask : list Z :=
  [255; 255; 255; 255; 255; 255; 255; 255;
   127; 255; 255; 255; 127; 255; 255; 255].

Definition one : list Z :=
  [0; 0; 0; 0; 0; 0; 0; 0; 0; 0; 0; 0; 0; 0; 0; 1].

Definition zero : list Z :=
  [0; 0; 0; 0; 0; 0; 0; 0; 0; 0; 0; 0; 0; 0; 0; 0].

Definition rb : list Z :=
  [0; 0; 0; 0; 0; 0; 0; 0; 0; 0; 0; 0; 0; 0; 0; 135].

Record aessiv : Type := { key : list Z }.

(** [func xorEnd(a, b []byte) []byte]: the first loop copies
    [a[0:offset]], the second writes [a[i+offset] ^ b[i]]. *)
Definition xorEnd (a b : list Z) : option (list Z) :=
  if (length a <? length b)%nat then None
  else
    let offset := (length a - length b)%nat in
    Some (map (fun i => nth i a 0) (seq 0 offset)
          ++ map (fun i => Z.lxor (nth (i + offset) a 0) (nth i b 0))
               (seq 0 (length b))).

(** [func dbl(d []byte) []byte] *)
Definition dbl (d : list Z) : option (list Z) :=
  let result := common.ShiftLeft d in
  match d with
  | [] => None
  | d0 :: _ =>
      if Z.land d0 common.Msb =? common.Msb then common.Xor result rb
      else Some result
  end.

(** The loop [for i := range a { result[i] = a[i] & b[i] }]. *)
Fixpoint andLoop (a b : list Z) : list Z :=
  match a, b with
  | x :: a', y :: b' => Z.land x y :: andLoop a' b'
  | _, _ => []
  end.

(** [func bitAnd(a, b []byte) []byte] *)
Definition bitAnd (a b : list Z) : option (list Z) :=
  if (length a =? length b)%nat then Some (andLoop a b) else None.

(** The loop of [s2v] over the indices [i, i+1, ..., i+n-1] of [aad]. *)
Fixpoint s2vLoop (AES : list Z -> cipher.Block) (key : list Z)
    (aad : list (list Z)) (i n : nat) (d : list Z) : option (list Z) :=
  match n with
  | O => Some d
  | S n' =>
      dd <- dbl d;;
      m <- cmac.Sum AES key (nth i aad []);;
      d' <- common.Xor dd m;;
      s2vLoop AES key aad (S i) n' d'
  end.

(** [func s2v(key []byte, aad [][]byte, plaintext []byte) []byte] *)
Definition s2v (AES : list Z -> cipher.Block) (key : list Z)
    (aad : list (list Z)) (plaintext : list Z) : option (list Z) :=
  if (length aad =? 0)%nat then cmac.Sum AES key one
  else
    d <- cmac.Sum AES key zero;;
    d <- s2vLoop AES key aad 0 (length aad) d;;
    t <- (if (16 <=? length plaintext)%nat then xorEnd plaintext d
          else dd <- dbl d;; common.Xor dd (common.Padding plaintext));;
    cmac.Sum AES key t.

(** [func (a aessiv) SealWithMultipleAAD(dst, plaintext []byte,
    additionalData [][]byte) []byte] *)
Definition SealWithMultipleAAD (AES : list Z -> cipher.Block) (a : aessiv)
    (dst plaintext : list Z) (additionalData : list (list Z))
  : option (list Z) :=
  let sivKey := firstn (length (key a) / 2) (key a) in
  let encKey := skipn (length (key a) / 2) (key a) in
  v <- s2v AES sivKey additionalData plaintext;;
  iv <- bitAnd v mask;;
  let dst := dst ++ v in
  match aes.NewCipher AES encKey with
  | Err _ => None
  | Ok aesEcb =>
      enc <- cipher.NewCTR aesEcb iv;;
      ciphertext <- cipher.XORKeyStream enc
                      (repeat 0 (length plaintext)) plaintext;;
      Some (dst ++ ciphertext)
  end.

(** [func (a aessiv) OpenWithMultipleAAD(dst, ciphertext []byte,
    additionalData [][]byte) ([]byte, error)]: the pair returned, the
    nil slice being [[]]. *)
Definition OpenWithMultipleAAD (AES : list Z -> cipher.Block) (a : aessiv)
    (dst ciphertext : list Z) (additionalData : list (list Z))
  : option (list Z * option error) :=
  if (length ciphertext <? blockSize + 1)%nat
  then Some ([], Some errInvalidCiphertextLength)
  else
    let v := firstn blockSize ciphertext in
    let c := skipn blockSize ciphertext in
    let k1 := firstn (length (key a) / 2) (key a) in
    let k2 := skipn (length (key a) / 2) (key a) in
    iv <- bitAnd v mask;;
    match aes.NewCipher AES k2 with
    | Err _ => None
    | Ok aesEcb =>
        enc <- cipher.NewCTR aesEcb iv;;
        plaintext <- cipher.XORKeyStream enc (repeat 0 (length c)) c;;
        t <- s2v AES k1 additionalData plaintext;;
        if subtle.ConstantTimeCompare t v =? 1
        then Some (dst ++ plaintext, None)
        else Some ([], Some errIntegrityError)
    end.

(** [func (a aessiv) Seal(dst, nonce, plaintext, additionalData []byte) []byte] *)
Definition Seal (AES : list Z -> cipher.Block) (a : aessiv)
    (dst nonce plaintext additionalData : list Z) : option (list Z) :=
  SealWithMultipleAAD AES a dst plaintext [additionalData].

(** [func (a aessiv) Open(dst, nonce, ciphertext, additionalData []byte)
    ([]byte, error)] *)
Definition Open (AES : list Z -> cipher.Block) (a : aessiv)
    (dst nonce ciphertext additionalData : list Z)
  : option (list Z * option error) :=
  OpenWithMultipleAAD AES a dst ciphertext [additionalData].

(** [func NewAesSIV(key []byte)], returning a pointer to [aessiv] and an error *)
Definition NewAesSIV (key : list Z) : result aessiv :=
  match length key with
  | 32%nat | 48%nat | 64%nat => Ok {| key := key |}
  | _ => Err errKeySizeNotSupported
  end.

(** [func (a aessiv) NonceSize() int] *)
Definition aessiv_NonceSize (a : aessiv) : nat := 0.

(** [func (a aessiv) Overhead() int] *)
Definition aessiv_Overhead (a : aessiv) : nat := blockSize.

End siv.

(** ** package siv, the test file *)

Module siv_test.

(** What [runSealOpen] returns: nil, an error of the package, or the
    error it makes itself, "plaintext mismatch". *)
Inductive outcome : Set :=
| passed
| failed (e : error)
| plaintextMismatch.

(** [func runSealOpen(key, plaintext []byte, aad [][]byte) error] *)
Definition runSealOpen (AES : list Z -> cipher.Block)
    (key plaintext : list Z) (aad : list (list Z)) : option outcome :=
  match siv.NewAesSIV key with
  | Err e => Some (failed e)
  | Ok s =>
      ct <- siv.SealWithMultipleAAD AES s [] plaintext aad;;
      r <- siv.OpenWithMultipleAAD AES s [] ct aad;;
      match snd r with
      | Some e => Some (failed e)
      | None =>
          if subtle.ConstantTimeCompare (fst r) plaintext =? 1
          then Some passed
          else Some plaintextMismatch
      end
  end.

End siv_test.

(** * The vocabulary of the statements *)

(** ** A stand-in block cipher for concrete runs

    Any keyed map from blocks to 16-byte blocks is a [cipher.Block]; this
    one adds the key and the position to each byte, modulo 256. *)

Definition sampleEncrypt (key src : list Z) : list Z :=
  map (fun i => (nth i src 0 + nth i key 0 + Z.of_nat i) mod 256) (seq 0 16).

Lemma sampleEncrypt_length (key src : list Z) :
  length (sampleEncrypt key src) = 16%nat.
Proof. reflexivity. Qed.

Definition sampleAES (key : list Z) : cipher.Block :=
  {| cipher.encryptBlock := sampleEncrypt key;
     cipher.encryptBlock_length := sampleEncrypt_length key |}.

(** A context for concrete runs: a state as [NewCmac] leaves it under the
    stand-in cipher and the all-zero 16-byte key, with given 16-byte
    subkeys and a given tail. *)
Definition sampleContext (had : bool) (tail : list Z) : cmac.cmac :=
  {| cmac.aesEncryptor := sampleAES (repeat 0 16);
     cmac.state := repeat 0 16;
     cmac.key := repeat 0 16;
     cmac.accumulator := tail;
     cmac.finished := false;
     cmac.hadData := had;
     cmac.k1 := [0; 2; 4; 6; 8; 10; 12; 14; 16; 18; 20; 22; 24; 26; 28; 30];
     cmac.k2 := [0; 4; 8; 12; 16; 20; 24; 28; 32; 36; 40; 44; 48; 52; 56; 60] |}.

(** ** package common *)

(** The bit that [ShiftLeft] carries out of a slice: its top bit. *)
Definition carryOf (l : list Z) : bool :=
  match l with
  | [] => false
  | x :: _ => Z.testbit x 7
  end.

(** ** package cmac *)

(** The key lengths [NewCmac] accepts. *)
Definition macKeyLength (n : nat) : Prop :=
  n = 16%nat \/ n = 24%nat \/ n = 32%nat.

(** The lengths that [init] sets up and every method keeps. *)
Definition ready (c : cmac.cmac) : Prop :=
  length (cmac.state c) = 16%nat /\ length (cmac.k1 c) = 16%nat /\
  length (cmac.k2 c) = 16%nat.

(** Fields that the loop of [Write] never assigns. *)
Definition sameKeys (c c' : cmac.cmac) : Prop :=
  cmac.aesEncryptor c' = cmac.aesEncryptor c /\ cmac.key c' = cmac.key c /\
  cmac.k1 c' = cmac.k1 c /\ cmac.k2 c' = cmac.k2 c /\
  cmac.finished c' = cmac.finished c /\ cmac.hadData c' = cmac.hadData c.

(** The CBC chaining step: XOR the block into the chaining value, then
    encrypt. *)
Definition chain (c : cmac.cmac) (blk : list Z) : list Z :=
  cipher.encryptBlock (cmac.aesEncryptor c)
    (common.xorLoop (cmac.state c) blk).

(** The tag: the encryption of the chaining value XOR the last block. *)
Definition tagOf (c : cmac.cmac) (chaining last : list Z) : list Z :=
  cipher.encryptBlock (cmac.aesEncryptor c) (common.xorLoop chaining last).

(** ** package siv *)

(** The key lengths [NewAesSIV] accepts. *)
Definition sivKeyLength (n : nat) : Prop :=
  n = 32%nat \/ n = 48%nat \/ n = 64%nat.

(** The two halves of the key, as [Seal] and [Open] slice them. *)
Definition macKeyOf (a : siv.aessiv) : list Z :=
  firstn (length (siv.key a) / 2) (siv.key a).

Definition encKeyOf (a : siv.aessiv) : list Z :=
  skipn (length (siv.key a) / 2) (siv.key a).

(** The CTR key stream that [Seal] and [Open] use for [n] bytes under the
    synthetic vector [v]: the IV is [bitAnd(v, mask)]. *)
Definition ctrStream (AES : list Z -> cipher.Block) (a : siv.aessiv)
    (v : list Z) (n : nat) : list Z :=
  cipher.keyStream (AES (encKeyOf a)) (siv.andLoop v siv.mask) (S (n / 16)).

(** The plaintext [Open] decrypts before it checks the tag. *)
Definition openedText (AES : list Z -> cipher.Block) (a : siv.aessiv)
    (ct : list Z) : list Z :=
  cipher.xorBytes (skipn 16 ct)
    (ctrStream AES a (firstn 16 ct) (length (skipn 16 ct))).

(** S2V in the words of the specification: a left-to-right fold over the
    AAD list, then the message is combined with the folded value. *)

Definition xorIntoTail (message d : list Z) : list Z :=
  firstn (length message - 16) message
  ++ common.xorLoop (skipn (length message - 16) message) d.

Definition foldStep (AES : list Z -> cipher.Block) (key : list Z)
    (acc : option (list Z)) (element : list Z) : option (list Z) :=
  d <- acc;;
  dd <- siv.dbl d;;
  m <- cmac.Sum AES key element;;
  common.Xor dd m.

Definition s2v_spec (AES : list Z -> cipher.Block) (key : list Z)
    (aad : list (list Z)) (message : list Z) : option (list Z) :=
  match aad with
  | [] => cmac.Sum AES key siv.one
  | _ :: _ =>
      d <- fold_left (foldStep AES key) aad (cmac.Sum AES key siv.zero);;
      t <- (if (16 <=? length message)%nat then Some (xorIntoTail message d)
            else dd <- siv.dbl d;; common.Xor dd (common.Padding message));;
      cmac.Sum AES key t
  end.

(** The tag with its two most-significant bits cleared and every other bit
    unchanged: the top two bits of the first byte go. *)
Definition clearTopTwoBits (v : list Z) : list Z :=
  match v with
  | [] => []
  | b0 :: rest => Z.land b0 63 :: rest
  end.

(** ** The MAC as a function of the whole message *)

(** [n] rounds of the chaining step over the first [n] blocks of [data]. *)
Fixpoint cbcChain (b : cipher.Block) (n : nat) (st data : list Z) : list Z :=
  match n with
  | O => st
  | S n' =>
      cbcChain b n'
        (cipher.encryptBlock b (common.xorLoop st (firstn 16 data)))
        (skipn 16 data)
  end.

(** The last block: a full one takes the first subkey, any other is
    padded and takes the second. *)
Definition lastBlockOf (ka kb tail : list Z) : list Z :=
  if (length tail =? 16)%nat then common.xorLoop tail ka
  else common.xorLoop (common.Padding tail) kb.

(** All blocks but the last are chained from the zero block; the last
    one (the whole message when it has at most 16 bytes) closes. *)
Definition macOf (b : cipher.Block) (ka kb data : list Z) : list Z :=
  let n := ((length data - 1) / 16)%nat in
  cipher.encryptBlock b
    (common.xorLoop (cbcChain b n (repeat 0 16) data)
       (lastBlockOf ka kb (skipn (16 * n) data))).

(** Doubling without the panics: what [dbl] returns on a 16-byte block. *)
Definition dblBytes (d : list Z) : list Z :=
  if carryOf d then common.xorLoop (common.ShiftLeft d) siv.rb
  else common.ShiftLeft d.

Definition subKey1 (b : cipher.Block) : list Z :=
  dblBytes (cipher.encryptBlock b cmac.zero).

Definition subKey2 (b : cipher.Block) : list Z := dblBytes (subKey1 b).

(** The context of a new MAC: zero chaining value, nothing retained, both
    flags clear, the two subkeys derived. *)
Definition freshContext (AES : list Z -> cipher.Block) (key : list Z)
  : cmac.cmac :=
  {| cmac.aesEncryptor := AES key;
     cmac.state := repeat 0 16;
     cmac.key := key;
     cmac.accumulator := [];
     cmac.finished := false;
     cmac.hadData := false;
     cmac.k1 := subKey1 (AES key);
     cmac.k2 := subKey2 (AES key) |}.

(** A client that writes the chunks one after the other, panicking on an
    error as [cmac.Sum] does. *)
Fixpoint writeAll (c : cmac.cmac) (chunks : list (list Z))
  : option cmac.cmac :=
  match chunks with
  | [] => Some c
  | p :: rest =>
      w <- cmac.cmac_Write c p;;
      match snd (snd w) with
      | Some _ => None
      | None => writeAll (fst w) rest
      end
  end.

(** [NewCmac], the chunks written in order, then [Sum(nil)]. *)
Definition sumOfWrites (AES : list Z -> cipher.Block) (key : list Z)
    (chunks : list (list Z)) : option (list Z) :=
  r <- cmac.NewCmac AES key;;
  match r with
  | Err _ => None
  | Ok c0 =>
      c <- writeAll c0 chunks;;
      s <- cmac.cmac_Sum c [];;
      Some (snd s)
  end.

(** What a context holds after the bytes [D] were written to a new one:
    [n] blocks are chained, the rest of [D] is retained, and at least one
    byte is retained once there is data. *)
Definition holds (c : cmac.cmac) (D : list Z) : Prop :=
  ready c /\ cmac.finished c = false /\
  exists n : nat,
    (16 * n <= length D)%nat /\
    cmac.accumulator c = skipn (16 * n) D /\
    cmac.state c = cbcChain (cmac.aesEncryptor c) n (repeat 0 16) D /\
    (length (cmac.accumulator c) < 32)%nat /\
    (D = [] -> cmac.hadData c = false) /\
    (D <> [] -> cmac.hadData c = true /\ (1 <= length (cmac.accumulator c))%nat).

(** The bytes retained after [L] bytes were written: all of them below
    two blocks, else one full block and the bytes past the last block
    boundary. *)
Definition retained (L : nat) : nat :=
  if (L <? 32)%nat then L else (16 + L mod 16)%nat.

(** ** Bytes as numbers *)

Definition isByte (x : Z) : Prop := 0 <= x < 256.

(** The big-endian value of a slice. *)
Fixpoint beValue (l : list Z) : Z :=
  match l with
  | [] => 0
  | x :: rest => x * 256 ^ Z.of_nat (length rest) + beValue rest
  end.

(** * Bytes and bits *)

Section Bits.

Lemma land_msb (x : Z) :
  Z.land x common.Msb = if Z.testbit x 7 then 128 else 0.
Proof.
  unfold common.Msb. apply Z.bits_inj'. intros n Hn.
  rewrite Z.land_spec. change 128 with (2 ^ 7).
  rewrite Z.pow2_bits_eqb by lia.
  destruct (Z.eqb_spec 7 n) as [<- | Hne].
  - destruct (Z.testbit x 7); [ now rewrite Z.pow2_bits_true | reflexivity ].
  - rewrite andb_false_r.
    destruct (Z.testbit x 7);
      [ now rewrite Z.pow2_bits_false | now rewrite Z.testbit_0_l ].
Qed.

Lemma carry_bit (x : Z) :
  Z.shiftr (Z.land x common.Msb) 7 = Z.b2z (Z.testbit x 7).
Proof. rewrite land_msb. now destruct (Z.testbit x 7). Qed.

Lemma msb_test (x : Z) :
  (Z.land x common.Msb =? common.Msb) = Z.testbit x 7.
Proof. rewrite land_msb. now destruct (Z.testbit x 7). Qed.

Lemma shl_byte_bits (x n : Z) :
  0 <= n ->
  Z.testbit ((Z.shiftl x 1) mod 256) n = (n <? 8) && Z.testbit x (n - 1).
Proof.
  intros Hn. change 256 with (2 ^ 8).
  rewrite Z.testbit_mod_pow2 by lia. now rewrite Z.shiftl_spec.
Qed.

Lemma b2z_bits (c : bool) (n : Z) :
  0 <= n -> Z.testbit (Z.b2z c) n = (n =? 0) && c.
Proof.
  intros Hn. destruct c; simpl.
  - change 1 with (2 ^ 0). rewrite Z.pow2_bits_eqb by lia.
    rewrite andb_true_r. apply Z.eqb_sym.
  - rewrite Z.testbit_0_l. now rewrite andb_false_r.
Qed.

(** One byte of [ShiftLeft], with the carry coming in, is linear. *)
Lemma shift_byte_xor (x y : Z) (c d : bool) :
  Z.lor ((Z.shiftl (Z.lxor x y) 1) mod 256) (Z.b2z (xorb c d)) =
  Z.lxor (Z.lor ((Z.shiftl x 1) mod 256) (Z.b2z c))
         (Z.lor ((Z.shiftl y 1) mod 256) (Z.b2z d)).
Proof.
  apply Z.bits_inj'. intros n Hn.
  rewrite Z.lxor_spec, !Z.lor_spec, !shl_byte_bits, !b2z_bits by lia.
  destruct (Z.eqb_spec n 0) as [-> | Hne].
  - rewrite !Z.testbit_neg_r by lia. simpl. reflexivity.
  - rewrite Z.lxor_spec. simpl. rewrite !orb_false_r.
    now destruct (n <? 8), (Z.testbit x (n - 1)), (Z.testbit y (n - 1)).
Qed.

Lemma lxor_cancel_r (x y r : Z) :
  Z.lxor (Z.lxor x r) (Z.lxor y r) = Z.lxor x y.
Proof.
  rewrite Z.lxor_assoc, (Z.lxor_comm y r), <- (Z.lxor_assoc r r y).
  now rewrite Z.lxor_nilpotent, Z.lxor_0_l.
Qed.

Lemma lxor_swap_r (x y r : Z) :
  Z.lxor (Z.lxor x r) y = Z.lxor (Z.lxor x y) r.
Proof. now rewrite !Z.lxor_assoc, (Z.lxor_comm r y). Qed.

Lemma lxor_involutive (x k : Z) : Z.lxor (Z.lxor x k) k = x.
Proof. now rewrite Z.lxor_assoc, Z.lxor_nilpotent, Z.lxor_0_r. Qed.

End Bits.

(** * package common: lengths and linearity *)

Section Common.

Lemma xorLoop_length (a b : list Z) :
  length a = length b -> length (common.xorLoop a b) = length a.
Proof.
  revert b. induction a as [| x a IH]; intros [| y b] H; simpl in *;
    try reflexivity; try discriminate.
  f_equal. apply IH. now injection H.
Qed.

Lemma Xor_some (a b : list Z) :
  length a = length b -> common.Xor a b = Some (common.xorLoop a b).
Proof. intros H. unfold common.Xor. now rewrite H, Nat.eqb_refl. Qed.

Lemma Xor_inv (a b r : list Z) :
  common.Xor a b = Some r ->
  length a = length b /\ r = common.xorLoop a b /\ length r = length a.
Proof.
  unfold common.Xor. destruct (Nat.eqb_spec (length a) (length b)) as [E | E];
    [ | discriminate ].
  intros [= <-]. repeat split; auto using xorLoop_length.
Qed.

Lemma xorLoop_cancel_r (a b r : list Z) :
  length a = length b -> length b = length r ->
  common.xorLoop (common.xorLoop a r) (common.xorLoop b r) = common.xorLoop a b.
Proof.
  revert b r. induction a as [| x a IH]; intros [| y b] [| z r] Hab Hbr;
    simpl in *; try reflexivity; try discriminate.
  rewrite lxor_cancel_r. f_equal. apply IH; congruence.
Qed.

Lemma xorLoop_swap_r (a b r : list Z) :
  length a = length b -> length b = length r ->
  common.xorLoop (common.xorLoop a r) b = common.xorLoop (common.xorLoop a b) r.
Proof.
  revert b r. induction a as [| x a IH]; intros [| y b] [| z r] Hab Hbr;
    simpl in *; try reflexivity; try discriminate.
  rewrite lxor_swap_r. f_equal. apply IH; congruence.
Qed.

Lemma xorLoop_assoc_r (a b r : list Z) :
  length a = length b -> length b = length r ->
  common.xorLoop a (common.xorLoop b r) = common.xorLoop (common.xorLoop a b) r.
Proof.
  revert b r. induction a as [| x a IH]; intros [| y b] [| z r] Hab Hbr;
    simpl in *; try reflexivity; try discriminate.
  rewrite Z.lxor_assoc. f_equal. apply IH; congruence.
Qed.

Lemma shiftLoop_carry (l : list Z) :
  snd (common.shiftLoop l) = Z.b2z (carryOf l).
Proof.
  destruct l as [| x rest]; simpl; [ reflexivity | ].
  destruct (common.shiftLoop rest). simpl. apply carry_bit.
Qed.

Lemma shiftLoop_length (l : list Z) :
  length (fst (common.shiftLoop l)) = length l.
Proof.
  induction l as [| x rest IH]; simpl; [ reflexivity | ].
  destruct (common.shiftLoop rest). simpl in *. now f_equal.
Qed.

Lemma ShiftLeft_length (l : list Z) :
  length (common.ShiftLeft l) = length l.
Proof. apply shiftLoop_length. Qed.

Lemma shiftLoop_xor (a b : list Z) :
  length a = length b ->
  common.shiftLoop (common.xorLoop a b) =
  (common.xorLoop (fst (common.shiftLoop a)) (fst (common.shiftLoop b)),
   Z.b2z (xorb (carryOf a) (carryOf b))).
Proof.
  revert b. induction a as [| x a IH]; intros [| y b] H; simpl in *;
    try reflexivity; try discriminate.
  injection H as H. rewrite (IH b H).
  pose proof (shiftLoop_carry a) as Ca. pose proof (shiftLoop_carry b) as Cb.
  destruct (common.shiftLoop a) as [ra ca], (common.shiftLoop b) as [rb cb].
  simpl in *. subst ca cb.
  rewrite shift_byte_xor, carry_bit, Z.lxor_spec. reflexivity.
Qed.

Lemma ShiftLeft_xor (a b : list Z) :
  length a = length b ->
  common.ShiftLeft (common.xorLoop a b) =
  common.xorLoop (common.ShiftLeft a) (common.ShiftLeft b).
Proof. intros H. unfold common.ShiftLeft. now rewrite shiftLoop_xor. Qed.

Lemma Padding_length (data : list Z) :
  (length data < 16)%nat -> length (common.Padding data) = 16%nat.
Proof.
  intros H. unfold common.Padding, common.blockSize.
  assert (L : length (data ++ [common.firstPaddingOctet]) = S (length data))
    by (rewrite length_app; simpl; lia).
  destruct (Nat.ltb_spec (length (data ++ [common.firstPaddingOctet])) 16).
  - rewrite length_app, repeat_length. lia.
  - lia.
Qed.

End Common.

(** * package cmac: the streaming MAC *)

Section Cmac.

Import cmac.

Lemma sameKeys_refl (c : cmac) : sameKeys c c.
Proof. repeat split. Qed.

Lemma Encrypt_block (b : cipher.Block) (x : list Z) :
  length x = 16%nat ->
  cipher.Encrypt b x x = Some (cipher.encryptBlock b x).
Proof.
  intros H. unfold cipher.Encrypt. rewrite H.
  change (16 <? 16)%nat with false. cbn [orb].
  rewrite firstn_all2, skipn_all2 by lia. now rewrite app_nil_r.
Qed.

Lemma Encrypt_zero (b : cipher.Block) :
  cipher.Encrypt b (repeat 0 blockSize) zero =
  Some (cipher.encryptBlock b zero).
Proof.
  unfold cipher.Encrypt. cbn [length repeat blockSize zero Nat.ltb Nat.leb orb].
  cbn [firstn skipn]. now rewrite app_nil_r.
Qed.

Lemma writeFullBlock_some (c : cmac) (blk : list Z) :
  length (state c) = 16%nat -> length blk = 16%nat ->
  cmac_writeFullBlock c blk =
  Some (set_state c
          (cipher.encryptBlock (aesEncryptor c)
             (common.xorLoop (state c) blk))).
Proof.
  intros Hs Hb. unfold cmac_writeFullBlock.
  rewrite Xor_some by congruence. simpl.
  rewrite Encrypt_block by (rewrite xorLoop_length; congruence).
  reflexivity.
Qed.

Lemma writeLoop_some (n : nat) :
  forall c : cmac,
    length (state c) = 16%nat ->
    (16 * n <= length (accumulator c))%nat ->
    exists c',
      writeLoop n c = Some c' /\ sameKeys c c' /\
      length (state c') = 16%nat /\
      accumulator c' = skipn (16 * n) (accumulator c).
Proof.
  induction n as [| n IH]; intros c Hs Hacc.
  - exists c. repeat split; auto.
  - cbn [writeLoop].
    rewrite writeFullBlock_some
      by (auto; unfold blockSize; rewrite length_firstn; lia).
    cbn [bind].
    set (c1 := set_accumulator _ _).
    destruct (IH c1) as (c' & Hrun & Hk & Hs' & Ha').
    + subst c1. cbn. apply cipher.encryptBlock_length.
    + subst c1. cbn [accumulator set_accumulator set_state].
      unfold blockSize. rewrite length_skipn. lia.
    + exists c'. split; [ exact Hrun | ].
      subst c1. unfold sameKeys in *.
      cbn [accumulator set_accumulator set_state aesEncryptor key k1 k2
           finished hadData] in *.
      repeat split; try tauto.
      rewrite Ha'. unfold blockSize. rewrite skipn_skipn.
      f_equal. lia.
Qed.

(** [Write] on a context that is not finalized takes its whole input,
    reports no error and keeps fewer than two blocks. *)
Lemma Write_some (c : cmac) (p : list Z) :
  ready c -> finished c = false ->
  (length (accumulator c) < 32)%nat ->
  exists c',
    cmac_Write c p = Some (c', (length p, None)) /\
    ready c' /\ finished c' = false /\
    aesEncryptor c' = aesEncryptor c /\
    (length (accumulator c') < 32)%nat /\
    (p = [] -> c' = c).
Proof.
  intros (Hs & Hk1 & Hk2) Hf Hacc. unfold cmac_Write. rewrite Hf.
  destruct p as [| x p]; [ exists c; repeat split; auto | ].
  cbn [length Nat.eqb].
  set (p' := x :: p).
  set (c0 := set_accumulator (set_hadData c true) _).
  change (S (length p)) with (length p').
  assert (Hacc0 : accumulator c0 = accumulator c ++ p') by reflexivity.
  destruct (Nat.leb_spec (length (accumulator c0) / blockSize) 1) as [Hn | Hn].
  - exists c0. repeat split; auto; try discriminate.
    unfold blockSize in Hn.
    destruct (Nat.lt_ge_cases (length (accumulator c0)) 32) as [L | L]; auto.
    apply (Nat.Div0.div_le_mono _ _ 16) in L.
    change (32 / 16)%nat with 2%nat in L. lia.
  - unfold blockSize in *.
    pose proof (Nat.div_mod_eq (length (accumulator c0)) 16) as D.
    pose proof (Nat.mod_upper_bound (length (accumulator c0)) 16) as U.
    destruct (writeLoop_some (length (accumulator c0) / 16 - 1) c0)
      as (c' & Hrun & Hk & Hs' & Ha'); [ exact Hs | lia | ].
    rewrite Hrun. cbn [bind]. exists c'.
    destruct Hk as (Ke & _ & K1 & K2 & Kf & _).
    subst c0.
    cbn [set_accumulator set_hadData aesEncryptor k1 k2 finished] in Ke, K1, K2, Kf.
    split; [ reflexivity | ].
    split; [ unfold ready; rewrite K1, K2; auto | ].
    split; [ congruence | ].
    split; [ exact Ke | ].
    split; [ | discriminate ].
    rewrite Ha', length_skipn. lia.
Qed.

Lemma generateSubKey_some (c : cmac) :
  exists ka kb,
    cmac_generateSubKey c = Some (ka, kb) /\
    length ka = 16%nat /\ length kb = 16%nat.
Proof.
  unfold cmac_generateSubKey. rewrite Encrypt_zero. cbn [bind].
  set (l := cipher.encryptBlock (aesEncryptor c) zero).
  assert (Hl : length l = 16%nat) by apply cipher.encryptBlock_length.
  assert (H1 : exists ka,
             match l with
             | [] => None
             | l0 :: _ =>
                 if Z.land l0 common.Msb =? common.Msb
                 then common.Xor (common.ShiftLeft l) rb
                 else Some (common.ShiftLeft l)
             end = Some ka /\ length ka = 16%nat).
  { destruct l as [| l0 l']; [ discriminate | ].
    destruct (Z.land l0 common.Msb =? common.Msb).
    - rewrite Xor_some by (rewrite ShiftLeft_length; exact Hl).
      eexists; split; [ reflexivity | ].
      rewrite xorLoop_length; rewrite ShiftLeft_length; exact Hl.
    - eexists; split; [ reflexivity | ]. now rewrite ShiftLeft_length. }
  destruct H1 as (ka & -> & Hka). cbn [bind].
  assert (H2 : exists kb,
             match ka with
             | [] => None
             | k0 :: _ =>
                 if Z.land k0 common.Msb =? common.Msb
                 then common.Xor (common.ShiftLeft ka) rb
                 else Some (common.ShiftLeft ka)
             end = Some kb /\ length kb = 16%nat).
  { destruct ka as [| k0 ka']; [ discriminate | ].
    destruct (Z.land k0 common.Msb =? common.Msb).
    - rewrite Xor_some by (rewrite ShiftLeft_length; exact Hka).
      eexists; split; [ reflexivity | ].
      rewrite xorLoop_length; rewrite ShiftLeft_length; exact Hka.
    - eexists; split; [ reflexivity | ]. now rewrite ShiftLeft_length. }
  destruct H2 as (kb & -> & Hkb). cbn [bind].
  exists ka, kb. auto.
Qed.

Lemma init_some (c : cmac) :
  exists c',
    cmac_init c = Some c' /\ ready c' /\ accumulator c' = [] /\
    finished c' = false /\ hadData c' = false /\
    aesEncryptor c' = aesEncryptor c /\ key c' = key c.
Proof.
  unfold cmac_init.
  destruct (generateSubKey_some c) as (ka & kb & -> & Ha & Hb).
  cbn [bind]. eexists. split; [ reflexivity | ].
  unfold ready. simpl. repeat split; assumption.
Qed.

Lemma NewCipher_ok (AES : list Z -> cipher.Block) (k : list Z) :
  macKeyLength (length k) -> aes.NewCipher AES k = Ok (AES k).
Proof.
  unfold aes.NewCipher. intros [-> | [-> | ->]]; reflexivity.
Qed.

Lemma NewCmac_ok (AES : list Z -> cipher.Block) (k : list Z) :
  macKeyLength (length k) ->
  exists c,
    NewCmac AES k = Some (Ok c) /\ ready c /\ accumulator c = [] /\
    finished c = false /\ hadData c = false /\ aesEncryptor c = AES k.
Proof.
  intros Hk. unfold NewCmac. rewrite (NewCipher_ok AES k Hk).
  set (c0 := Build_cmac _ _ _ _ _ _ _ _).
  destruct (init_some c0) as (c & Hi & Hr & Ha & Hf & Hd & He & _).
  exists c. rewrite Hi. cbn [bind].
  destruct Hk as [-> | [-> | ->]]; repeat split; try tauto; apply Hr.
Qed.

Lemma xorLoop_comm (a b : list Z) :
  common.xorLoop a b = common.xorLoop b a.
Proof.
  revert b. induction a as [| x a IH]; intros [| y b]; simpl;
    try reflexivity.
  now rewrite Z.lxor_comm, IH.
Qed.

(** The end of [Sum]: from a 16-byte last block to the tag. *)
Lemma Sum_tail (c : cmac) (b last : list Z) :
  length (state c) = 16%nat -> length last = 16%nat ->
  (y <- common.Xor (accumulator (set_accumulator c last))
          (state (set_accumulator c last));;
   y' <- cipher.Encrypt (aesEncryptor (set_accumulator c last)) y y;;
   Some (set_finished (set_accumulator c last) true, b ++ y')) =
  Some (set_finished (set_accumulator c last) true,
        b ++ tagOf c (state c) last).
Proof.
  intros Hs Hl. cbn [accumulator state aesEncryptor set_accumulator].
  rewrite Xor_some by congruence. cbn [bind].
  rewrite Encrypt_block by (rewrite xorLoop_length; congruence).
  cbn [bind]. unfold tagOf. now rewrite xorLoop_comm.
Qed.

Lemma Sum_body_noData (c : cmac) (b : list Z) :
  ready c -> hadData c = false ->
  cmac_Sum_body c b =
  Some (set_finished
          (set_accumulator c (common.xorLoop (common.Padding []) (k2 c))) true,
        b ++ tagOf c (state c) (common.xorLoop (common.Padding []) (k2 c))).
Proof.
  intros (Hs & Hk1 & Hk2) Hd. unfold cmac_Sum_body. rewrite Hd.
  rewrite Xor_some by (rewrite Padding_length; simpl; lia).
  cbn [bind]. apply Sum_tail; auto.
  rewrite xorLoop_length; rewrite Padding_length; simpl; lia.
Qed.

Lemma Sum_body_fullBlock (c : cmac) (b : list Z) :
  ready c -> hadData c = true -> length (accumulator c) = 16%nat ->
  cmac_Sum_body c b =
  Some (set_finished
          (set_accumulator c (common.xorLoop (accumulator c) (k1 c))) true,
        b ++ tagOf c (state c) (common.xorLoop (accumulator c) (k1 c))).
Proof.
  intros (Hs & Hk1 & Hk2) Hd Ha. unfold cmac_Sum_body. rewrite Hd, Ha.
  cbn [blockSize Nat.eqb].
  rewrite Xor_some by congruence.
  cbn [bind]. apply Sum_tail; auto.
  rewrite xorLoop_length; congruence.
Qed.

Lemma Sum_body_partial (c : cmac) (b : list Z) :
  ready c -> hadData c = true -> (length (accumulator c) < 16)%nat ->
  cmac_Sum_body c b =
  Some (set_finished
          (set_accumulator c
             (common.xorLoop (common.Padding (accumulator c)) (k2 c))) true,
        b ++ tagOf c (state c)
               (common.xorLoop (common.Padding (accumulator c)) (k2 c))).
Proof.
  intros (Hs & Hk1 & Hk2) Hd Ha. unfold cmac_Sum_body. rewrite Hd.
  unfold blockSize.
  destruct (Nat.eqb_spec (length (accumulator c)) 16) as [E | _]; [ lia | ].
  destruct (Nat.ltb_spec 16 (length (accumulator c))) as [E | _]; [ lia | ].
  cbn [bind].
  rewrite Xor_some by (rewrite Padding_length; lia).
  cbn [bind]. apply Sum_tail; auto.
  rewrite xorLoop_length; rewrite Padding_length; lia.
Qed.

Lemma Sum_body_drain (c : cmac) (b : list Z) :
  ready c -> hadData c = true ->
  (16 < length (accumulator c) < 32)%nat ->
  let c1 := set_state c (chain c (firstn 16 (accumulator c))) in
  let last := common.xorLoop (common.Padding (skipn 16 (accumulator c))) (k2 c) in
  cmac_Sum_body c b =
  Some (set_finished (set_accumulator c1 last) true,
        b ++ tagOf c (chain c (firstn 16 (accumulator c))) last).
Proof.
  intros (Hs & Hk1 & Hk2) Hd Ha c1 last. unfold cmac_Sum_body. rewrite Hd.
  unfold blockSize.
  destruct (Nat.eqb_spec (length (accumulator c)) 16) as [E | _]; [ lia | ].
  destruct (Nat.ltb_spec 16 (length (accumulator c))) as [_ | E]; [ | lia ].
  rewrite writeFullBlock_some by (auto; rewrite length_firstn; lia).
  cbn [bind]. fold (chain c (firstn 16 (accumulator c))). fold c1.
  assert (Hp : length (common.Padding (skipn 16 (accumulator c))) = 16%nat)
    by (apply Padding_length; rewrite length_skipn; lia).
  cbn [accumulator set_accumulator k2].
  change (accumulator c1) with (accumulator c).
  change (k2 c1) with (k2 c).
  rewrite Xor_some by congruence.
  cbn [bind]. fold last.
  apply (Sum_tail c1 b last).
  - apply cipher.encryptBlock_length.
  - unfold last. rewrite xorLoop_length; congruence.
Qed.

(** On a context as [init] and [Write] leave it, [Sum] returns a tag of
    16 bytes after [b]; the caller's context is what it was. *)
Lemma cmac_Sum_some (c : cmac) (b : list Z) :
  ready c -> (length (accumulator c) < 32)%nat ->
  exists t, cmac_Sum c b = Some (c, b ++ t) /\ length t = 16%nat.
Proof.
  intros Hr Ha. unfold cmac_Sum.
  destruct (hadData c) eqn:Hd.
  - destruct (Nat.lt_trichotomy (length (accumulator c)) 16) as [L | [L | L]].
    + rewrite Sum_body_partial by auto. cbn [bind snd].
      eexists; split; [ reflexivity | apply cipher.encryptBlock_length ].
    + rewrite Sum_body_fullBlock by auto. cbn [bind snd].
      eexists; split; [ reflexivity | apply cipher.encryptBlock_length ].
    + rewrite Sum_body_drain by (auto; lia). cbn [bind snd].
      eexists; split; [ reflexivity | apply cipher.encryptBlock_length ].
  - rewrite Sum_body_noData by auto. cbn [bind snd].
    eexists; split; [ reflexivity | apply cipher.encryptBlock_length ].
Qed.

(** [cmac.Sum(key, data)] returns a 16-byte tag for every valid key. *)
Lemma Sum_some (AES : list Z -> cipher.Block) (k data : list Z) :
  macKeyLength (length k) ->
  exists t, Sum AES k data = Some t /\ length t = 16%nat.
Proof.
  intros Hk. unfold Sum.
  destruct (NewCmac_ok AES k Hk) as (c & -> & Hr & Ha & Hf & _).
  cbn [bind].
  destruct (Write_some c data Hr Hf) as (c' & -> & Hr' & _ & _ & Ha' & _);
    [ rewrite Ha; simpl; lia | ].
  cbn [bind snd fst].
  destruct (cmac_Sum_some c' [] Hr' Ha') as (t & -> & Ht).
  cbn [bind snd app]. now exists t.
Qed.

End Cmac.

(** * package siv: S2V and the AEAD *)

Section Siv.

Variable AES : list Z -> cipher.Block.

Lemma NewCmac_bad (k : list Z) :
  ~ macKeyLength (length k) ->
  cmac.NewCmac AES k = Some (Err errUnsupportedKeySize).
Proof.
  unfold macKeyLength, cmac.NewCmac. intros H.
  remember (length k) as n eqn:E. clear E.
  do 33 (destruct n as [| n]; [ try reflexivity; exfalso; apply H; lia | ]).
  reflexivity.
Qed.

Lemma macKeyLength_dec (n : nat) : {macKeyLength n} + {~ macKeyLength n}.
Proof.
  unfold macKeyLength.
  destruct (Nat.eq_dec n 16), (Nat.eq_dec n 24), (Nat.eq_dec n 32);
    try (left; tauto); right; tauto.
Defined.

(** [cmac.Sum] either panics or returns 16 bytes. *)
Lemma Sum_inv (k data t : list Z) :
  cmac.Sum AES k data = Some t -> length t = 16%nat.
Proof.
  intros H. destruct (macKeyLength_dec (length k)) as [Hk | Hk].
  - destruct (Sum_some AES k data Hk) as (t' & E & L). congruence.
  - unfold cmac.Sum in H. rewrite (NewCmac_bad k Hk) in H. discriminate.
Qed.

Lemma dbl_some (d : list Z) :
  length d = 16%nat ->
  exists r, siv.dbl d = Some r /\ length r = 16%nat.
Proof.
  intros H. unfold siv.dbl. destruct d as [| d0 d']; [ discriminate | ].
  destruct (Z.land d0 common.Msb =? common.Msb).
  - rewrite Xor_some by (rewrite ShiftLeft_length; exact H).
    eexists; split; [ reflexivity | ].
    rewrite xorLoop_length; rewrite ShiftLeft_length; exact H.
  - eexists; split; [ reflexivity | ]. now rewrite ShiftLeft_length.
Qed.

Lemma dbl_value (d : list Z) :
  length d = 16%nat ->
  siv.dbl d =
  Some (if carryOf d then common.xorLoop (common.ShiftLeft d) siv.rb
        else common.ShiftLeft d).
Proof.
  intros H. unfold siv.dbl. destruct d as [| d0 d']; [ discriminate | ].
  rewrite msb_test. cbn [carryOf]. destruct (Z.testbit d0 7); [ | reflexivity ].
  apply Xor_some. now rewrite ShiftLeft_length.
Qed.

Lemma carryOf_xor (a b : list Z) :
  length a = length b ->
  carryOf (common.xorLoop a b) = xorb (carryOf a) (carryOf b).
Proof.
  destruct a as [| x a], b as [| y b]; simpl; try discriminate;
    [ reflexivity | ].
  intros _. apply Z.lxor_spec.
Qed.

Lemma andLoop_length (a b : list Z) :
  length a = length b -> length (siv.andLoop a b) = length a.
Proof.
  revert b. induction a as [| x a IH]; intros [| y b] H; simpl in *;
    try reflexivity; try discriminate.
  f_equal. apply IH. now injection H.
Qed.

Lemma bitAnd_mask (v : list Z) :
  length v = 16%nat ->
  siv.bitAnd v siv.mask = Some (siv.andLoop v siv.mask) /\
  length (siv.andLoop v siv.mask) = 16%nat.
Proof.
  intros H. unfold siv.bitAnd. rewrite H. split; [ reflexivity | ].
  rewrite andLoop_length; [ exact H | now rewrite H ].
Qed.

(** ** [xorEnd], by index and by slices *)

Lemma nth_map_seq {A : Type} (f : nat -> A) (n i : nat) (d : A) :
  (i < n)%nat -> nth i (map f (seq 0 n)) d = f i.
Proof.
  intros H. rewrite (nth_indep _ d (f 0%nat)) by (now rewrite length_map, length_seq).
  rewrite (map_nth f (seq 0 n) 0%nat i). now rewrite seq_nth.
Qed.

Lemma nth_xorLoop (a b : list Z) (i : nat) :
  length a = length b ->
  nth i (common.xorLoop a b) 0 = Z.lxor (nth i a 0) (nth i b 0).
Proof.
  revert b i. induction a as [| x a IH]; intros [| y b] i H; simpl in *;
    try discriminate.
  - now destruct i.
  - destruct i as [| i]; [ reflexivity | ]. apply IH. now injection H.
Qed.

Lemma xorEnd_slices (a b : list Z) :
  (length b <= length a)%nat ->
  siv.xorEnd a b =
  Some (firstn (length a - length b) a
        ++ common.xorLoop (skipn (length a - length b) a) b).
Proof.
  intros H. unfold siv.xorEnd.
  destruct (Nat.ltb_spec (length a) (length b)) as [L | _]; [ lia | ].
  set (off := (length a - length b)%nat).
  assert (Hs : length (skipn off a) = length b)
    by (rewrite length_skipn; unfold off; lia).
  f_equal. f_equal.
  - apply (nth_ext _ _ 0 0).
    + rewrite length_map, length_seq, length_firstn. unfold off. lia.
    + intros i Hi. rewrite length_map, length_seq in Hi.
      rewrite nth_map_seq by exact Hi.
      rewrite nth_firstn.
      destruct (Nat.ltb_spec i off); [ reflexivity | lia ].
  - apply (nth_ext _ _ 0 0).
    + rewrite length_map, length_seq, xorLoop_length; auto.
    + intros i Hi. rewrite length_map, length_seq in Hi.
      rewrite nth_map_seq by exact Hi.
      rewrite nth_xorLoop by exact Hs.
      rewrite nth_skipn. f_equal. f_equal. lia.
Qed.

Lemma xorEnd_16 (message d : list Z) :
  (16 <= length message)%nat -> length d = 16%nat ->
  siv.xorEnd message d = Some (xorIntoTail message d) /\
  length (xorIntoTail message d) = length message.
Proof.
  intros Hm Hd. rewrite xorEnd_slices by lia. unfold xorIntoTail.
  rewrite Hd. split; [ reflexivity | ].
  rewrite length_app, length_firstn, xorLoop_length;
    rewrite length_skipn; lia.
Qed.

(** ** The loop of [s2v] is the fold *)

Lemma fold_panic (k : list Z) (l : list (list Z)) :
  fold_left (foldStep AES k) l None = None.
Proof. induction l as [| x l IH]; simpl; auto. Qed.

Lemma s2vLoop_fold (k : list Z) (rest : list (list Z)) :
  forall (pre : list (list Z)) (d : list Z),
    siv.s2vLoop AES k (pre ++ rest) (length pre) (length rest) d =
    fold_left (foldStep AES k) rest (Some d).
Proof.
  induction rest as [| x rest IH]; intros pre d; [ reflexivity | ].
  cbn [length siv.s2vLoop fold_left].
  rewrite nth_middle.
  unfold foldStep at 2. cbn [bind].
  destruct (siv.dbl d) as [dd |]; cbn [bind]; [ | now rewrite fold_panic ].
  destruct (cmac.Sum AES k x) as [m |]; cbn [bind]; [ | now rewrite fold_panic ].
  destruct (common.Xor dd m) as [d' |]; cbn [bind]; [ | now rewrite fold_panic ].
  replace (pre ++ x :: rest) with ((pre ++ [x]) ++ rest)
    by (now rewrite <- app_assoc).
  replace (S (length pre)) with (length (pre ++ [x]))
    by (rewrite length_app; simpl; lia).
  apply IH.
Qed.

Lemma foldStep_length (k : list Z) (acc : option (list Z)) (x d : list Z) :
  foldStep AES k acc x = Some d -> length d = 16%nat.
Proof.
  unfold foldStep. destruct acc as [d0 |]; [ | discriminate ]. cbn [bind].
  destruct (siv.dbl d0) as [dd |]; [ | discriminate ]. cbn [bind].
  destruct (cmac.Sum AES k x) as [m |] eqn:Em; [ | discriminate ]. cbn [bind].
  intros H. apply Xor_inv in H. destruct H as (E & _ & L).
  apply Sum_inv in Em. congruence.
Qed.

Lemma fold_length (k : list Z) (l : list (list Z)) :
  forall (acc : option (list Z)) (d : list Z),
    (forall d0, acc = Some d0 -> length d0 = 16%nat) ->
    fold_left (foldStep AES k) l acc = Some d -> length d = 16%nat.
Proof.
  induction l as [| x l IH]; intros acc d Hacc H; simpl in H.
  - now apply Hacc.
  - apply (IH _ _ (fun d0 => foldStep_length k acc x d0) H).
Qed.

Lemma s2vLoop_some (k : list Z) (aad : list (list Z)) (n : nat) :
  macKeyLength (length k) ->
  forall (i : nat) (d : list Z),
    length d = 16%nat ->
    exists r, siv.s2vLoop AES k aad i n d = Some r /\ length r = 16%nat.
Proof.
  intros Hk. induction n as [| n IH]; intros i d Hd.
  - exists d. now split.
  - cbn [siv.s2vLoop].
    destruct (dbl_some d Hd) as (dd & -> & Hdd). cbn [bind].
    destruct (Sum_some AES k (nth i aad []) Hk) as (m & -> & Hm). cbn [bind].
    rewrite Xor_some by congruence. cbn [bind].
    apply IH. rewrite xorLoop_length; congruence.
Qed.

(** [s2v] returns a 16-byte vector for every valid MAC key. *)
Lemma s2v_some (k : list Z) (aad : list (list Z)) (pt : list Z) :
  macKeyLength (length k) ->
  exists v, siv.s2v AES k aad pt = Some v /\ length v = 16%nat.
Proof.
  intros Hk. unfold siv.s2v.
  destruct (Nat.eqb_spec (length aad) 0) as [_ | _];
    [ exact (Sum_some AES k siv.one Hk) | ].
  destruct (Sum_some AES k siv.zero Hk) as (d0 & -> & Hd0). cbn [bind].
  destruct (s2vLoop_some k aad (length aad) Hk 0%nat d0 Hd0) as (d & -> & Hd).
  cbn [bind].
  destruct (Nat.leb_spec 16 (length pt)) as [L | L].
  - destruct (xorEnd_16 pt d L Hd) as (-> & _). cbn [bind].
    exact (Sum_some AES k _ Hk).
  - destruct (dbl_some d Hd) as (dd & -> & Hdd). cbn [bind].
    rewrite Xor_some by (rewrite Padding_length; lia). cbn [bind].
    exact (Sum_some AES k _ Hk).
Qed.

(** ** Counter mode *)

Lemma keyStream_length (b : cipher.Block) (n : nat) :
  forall ctr, length (cipher.keyStream b ctr n) = (16 * n)%nat.
Proof.
  induction n as [| n IH]; intros ctr; [ reflexivity | ].
  cbn [cipher.keyStream]. rewrite length_app, cipher.encryptBlock_length, IH.
  lia.
Qed.

Lemma xorBytes_length (src ks : list Z) :
  (length src <= length ks)%nat ->
  length (cipher.xorBytes src ks) = length src.
Proof.
  revert ks. induction src as [| x src IH]; intros [| k ks] H; simpl in *;
    try reflexivity; try lia.
  f_equal. apply IH. lia.
Qed.

Lemma xorBytes_involutive (src ks : list Z) :
  (length src <= length ks)%nat ->
  cipher.xorBytes (cipher.xorBytes src ks) ks = src.
Proof.
  revert ks. induction src as [| x src IH]; intros [| k ks] H; simpl in *;
    try reflexivity; try lia.
  rewrite lxor_involutive. f_equal. apply IH. lia.
Qed.

Lemma stream_covers (b : cipher.Block) (ctr src : list Z) :
  (length src <= length (cipher.keyStream b ctr (S (length src / 16))))%nat.
Proof.
  rewrite keyStream_length.
  pose proof (Nat.div_mod_eq (length src) 16).
  pose proof (Nat.mod_upper_bound (length src) 16). lia.
Qed.

(** [XORKeyStream] into a fresh [make([]byte, len(src))]. *)
Lemma XORKeyStream_fresh (s : cipher.Stream) (src : list Z) :
  cipher.XORKeyStream s (repeat 0 (length src)) src =
  Some (cipher.xorBytes src
          (cipher.keyStream (cipher.block s) (cipher.iv s)
             (S (length src / 16)))).
Proof.
  unfold cipher.XORKeyStream. rewrite repeat_length, Nat.ltb_irrefl.
  rewrite skipn_all2 by (rewrite repeat_length; lia).
  now rewrite app_nil_r.
Qed.

(** ** Constant-time comparison *)

Lemma orXor_zero (x : list Z) :
  forall (y : list Z) (v : Z),
    length x = length y ->
    (subtle.orXor x y v = 0 <-> v = 0 /\ x = y).
Proof.
  induction x as [| a x IH]; intros [| b y] v H; simpl in *;
    try discriminate.
  - tauto.
  - injection H as H. rewrite (IH y _ H), Z.lor_eq_0_iff, Z.lxor_eq_0_iff.
    split.
    + intros ((-> & ->) & ->). auto.
    + intros (-> & E). injection E as -> ->. auto.
Qed.

Lemma ConstantTimeCompare_eq (x y : list Z) :
  (subtle.ConstantTimeCompare x y =? 1) = true <-> x = y.
Proof.
  unfold subtle.ConstantTimeCompare.
  destruct (Nat.eqb_spec (length x) (length y)) as [L | L].
  - pose proof (orXor_zero x y 0 L) as Hz.
    destruct (Z.eqb_spec (subtle.orXor x y 0) 0) as [E | E]; simpl.
    + split; [ intros _; now apply Hz | reflexivity ].
    + split; [ discriminate | intros ->; exfalso; apply E; now apply Hz ].
  - simpl. split; [ discriminate | intros ->; now elim L ].
Qed.

Lemma ConstantTimeCompare_refl (x : list Z) :
  (subtle.ConstantTimeCompare x x =? 1) = true.
Proof. now apply ConstantTimeCompare_eq. Qed.

Lemma halves (a : siv.aessiv) :
  sivKeyLength (length (siv.key a)) ->
  macKeyLength (length (macKeyOf a)) /\ macKeyLength (length (encKeyOf a)).
Proof.
  unfold macKeyOf, encKeyOf, macKeyLength.
  rewrite length_firstn, length_skipn.
  intros [-> | [-> | ->]]; simpl; lia.
Qed.

Lemma ctr_run (a : siv.aessiv) (v src : list Z) :
  length v = 16%nat ->
  (enc <- cipher.NewCTR (AES (encKeyOf a)) (siv.andLoop v siv.mask);;
   cipher.XORKeyStream enc (repeat 0 (length src)) src) =
  Some (cipher.xorBytes src (ctrStream AES a v (length src))).
Proof.
  intros Hv. unfold cipher.NewCTR.
  rewrite (proj2 (bitAnd_mask v Hv)). cbn [Nat.eqb bind].
  now rewrite XORKeyStream_fresh.
Qed.

(** [SealWithMultipleAAD], step by step, for a key of a valid length. *)
Lemma Seal_some (a : siv.aessiv) (dst pt : list Z) (aad : list (list Z)) :
  sivKeyLength (length (siv.key a)) ->
  exists v,
    siv.s2v AES (macKeyOf a) aad pt = Some v /\ length v = 16%nat /\
    siv.SealWithMultipleAAD AES a dst pt aad =
    Some ((dst ++ v) ++ cipher.xorBytes pt (ctrStream AES a v (length pt))).
Proof.
  intros Hk. destruct (halves a Hk) as (Hm & He).
  destruct (s2v_some (macKeyOf a) aad pt Hm) as (v & Hv & Lv).
  exists v. split; [ exact Hv | ]. split; [ exact Lv | ].
  unfold siv.SealWithMultipleAAD.
  fold (macKeyOf a). fold (encKeyOf a). rewrite Hv. cbn [bind].
  rewrite (proj1 (bitAnd_mask v Lv)). cbn [bind].
  rewrite (NewCipher_ok AES _ He).
  pose proof (ctr_run a v pt Lv) as R. unfold bind in R |- *.
  destruct (cipher.NewCTR (AES (encKeyOf a)) (siv.andLoop v siv.mask));
    [ | discriminate ].
  now rewrite R.
Qed.

(** [OpenWithMultipleAAD], step by step, for a key of a valid length and
    an input of at least 17 bytes. *)
Lemma Open_some (a : siv.aessiv) (dst ct : list Z) (aad : list (list Z)) :
  sivKeyLength (length (siv.key a)) ->
  (17 <= length ct)%nat ->
  let v := firstn 16 ct in
  let pt := cipher.xorBytes (skipn 16 ct)
              (ctrStream AES a v (length (skipn 16 ct))) in
  exists t,
    siv.s2v AES (macKeyOf a) aad pt = Some t /\ length t = 16%nat /\
    siv.OpenWithMultipleAAD AES a dst ct aad =
    Some (if subtle.ConstantTimeCompare t v =? 1
          then (dst ++ pt, None)
          else ([], Some errIntegrityError)).
Proof.
  intros Hk Hl v pt. destruct (halves a Hk) as (Hm & He).
  assert (Lv : length v = 16%nat)
    by (unfold v; rewrite length_firstn; lia).
  destruct (s2v_some (macKeyOf a) aad pt Hm) as (t & Ht & Lt).
  exists t. split; [ exact Ht | ]. split; [ exact Lt | ].
  unfold siv.OpenWithMultipleAAD, siv.blockSize.
  destruct (Nat.ltb_spec (length ct) (16 + 1)) as [L | _]; [ lia | ].
  fold (macKeyOf a). fold (encKeyOf a). fold v.
  rewrite (proj1 (bitAnd_mask v Lv)). cbn [bind].
  rewrite (NewCipher_ok AES _ He).
  pose proof (ctr_run a v (skipn 16 ct) Lv) as R. unfold bind in R |- *.
  destruct (cipher.NewCTR (AES (encKeyOf a)) (siv.andLoop v siv.mask));
    [ | discriminate ].
  rewrite R. fold pt. rewrite Ht.
  now destruct (subtle.ConstantTimeCompare t v =? 1).
Qed.

End Siv.

(** * The properties of the specification *)

(** ** GF(2^128) doubling *)

(** The vectors of [testDouble]. *)
Example dbl_test_vector_1 :
  siv.dbl [14; 4; 223; 175; 193; 239; 191; 4; 1; 64; 88; 40; 89; 191; 7; 58] =
  Some [28; 9; 191; 95; 131; 223; 126; 8; 2; 128; 176; 80; 179; 126; 14; 116].
Proof. reflexivity. Qed.

Example dbl_test_vector_2 :
  siv.dbl [237; 240; 157; 232; 118; 198; 66; 238; 77; 120; 188; 228; 206; 237; 252; 79] =
  Some [219; 225; 59; 208; 237; 140; 133; 220; 154; 241; 121; 201; 157; 219; 248; 25].
Proof. reflexivity. Qed.

(** C9. Doubling is linear over XOR: for 16-byte blocks [a] and [b], the
    calls [dbl(a)], [dbl(b)] and [Xor(a, b)] return, and
    [Xor(dbl(a), dbl(b))] is [dbl(Xor(a, b))]. *)
Theorem dbl_linear (a b : list Z) :
  length a = 16%nat -> length b = 16%nat ->
  exists da db ab r,
    siv.dbl a = Some da /\ siv.dbl b = Some db /\
    common.Xor a b = Some ab /\
    common.Xor da db = Some r /\ siv.dbl ab = Some r.
Proof.
  intros Ha Hb.
  assert (Hab : length a = length b) by congruence.
  assert (Hx : length (common.xorLoop a b) = 16%nat)
    by (rewrite xorLoop_length; congruence).
  assert (Hsa : length (common.ShiftLeft a) = 16%nat)
    by (now rewrite ShiftLeft_length).
  assert (Hsb : length (common.ShiftLeft b) = 16%nat)
    by (now rewrite ShiftLeft_length).
  assert (Hrb : length siv.rb = 16%nat) by reflexivity.
  rewrite (dbl_value a Ha), (dbl_value b Hb), (Xor_some a b Hab).
  do 4 eexists.
  split; [ reflexivity | ]. split; [ reflexivity | ]. split; [ reflexivity | ].
  rewrite (dbl_value _ Hx), (carryOf_xor a b Hab), (ShiftLeft_xor a b Hab).
  split; [ | reflexivity ].
  destruct (carryOf a), (carryOf b); cbn [xorb];
    (rewrite Xor_some by (try rewrite !xorLoop_length; congruence));
    f_equal.
  - (* both reduced: the two copies of rb cancel *)
    apply xorLoop_cancel_r; congruence.
  - (* only dbl(a) reduced *)
    apply xorLoop_swap_r; congruence.
  - (* only dbl(b) reduced *)
    apply xorLoop_assoc_r; congruence.
Qed.

Lemma dbl_linear_witness :
  exists da db ab r,
    siv.dbl (repeat 200 16) = Some da /\ siv.dbl (repeat 3 16) = Some db /\
    common.Xor (repeat 200 16) (repeat 3 16) = Some ab /\
    common.Xor da db = Some r /\ siv.dbl ab = Some r.
Proof.
  apply (dbl_linear (repeat 200 16) (repeat 3 16)); reflexivity.
Defined.

(** ** The mask of the CTR IV *)

(** The vector of [testBitAnd]. *)
Example bitAnd_test_vector :
  siv.bitAnd
    [133; 99; 45; 7; 198; 232; 243; 127; 149; 10; 205; 50; 10; 46; 204; 147]
    siv.mask =
  Some [133; 99; 45; 7; 198; 232; 243; 127; 21; 10; 205; 50; 10; 46; 204; 147].
Proof. reflexivity. Qed.

(** C2, as stated, fails: on the all-ones tag the mask leaves the two
    most-significant bits of the tag set (the first byte stays 255) and
    clears a bit in each of the bytes 8 and 12. *)
Lemma mask_keeps_top_two_bits :
  siv.bitAnd (repeat 255 16) siv.mask =
  Some [255; 255; 255; 255; 255; 255; 255; 255;
        127; 255; 255; 255; 127; 255; 255; 255] /\
  clearTopTwoBits (repeat 255 16) =
  [63; 255; 255; 255; 255; 255; 255; 255;
   255; 255; 255; 255; 255; 255; 255; 255] /\
  siv.bitAnd (repeat 255 16) siv.mask <> Some (clearTopTwoBits (repeat 255 16)).
Proof. repeat split. discriminate. Qed.

Lemma nth_andLoop (a b : list Z) (i : nat) :
  length a = length b ->
  nth i (siv.andLoop a b) 0 = Z.land (nth i a 0) (nth i b 0).
Proof.
  revert b i. induction a as [| x a IH]; intros [| y b] i H; simpl in *;
    try discriminate.
  - now destruct i.
  - destruct i as [| i]; [ reflexivity | ]. apply IH. now injection H.
Qed.

Lemma nth_mask (i : nat) :
  (i < 16)%nat ->
  nth i siv.mask 0 = if (i =? 8)%nat || (i =? 12)%nat then 127 else 255.
Proof.
  intros H. do 16 (destruct i as [| i]; [ reflexivity | ]). lia.
Qed.

Lemma land_ones_bits (x n j : Z) :
  0 <= j -> 0 <= n ->
  Z.testbit (Z.land x (Z.ones n)) j = Z.testbit x j && (j <? n).
Proof.
  intros Hj Hn. rewrite Z.land_spec. f_equal.
  destruct (Z.ltb_spec j n).
  - apply Z.ones_spec_low. lia.
  - apply Z.ones_spec_high. lia.
Qed.

(** C2, amended. The IV is the bytewise AND of the 16-byte tag with the
    mask, which clears bit 7 of byte 8 and bit 7 of byte 12 (the top bit
    of each of the last two 32-bit words) and leaves every other bit. *)
Theorem mask_clears_word_top_bits (v : list Z) :
  length v = 16%nat ->
  exists iv,
    siv.bitAnd v siv.mask = Some iv /\ length iv = 16%nat /\
    forall (i : nat) (j : Z),
      (i < 16)%nat -> 0 <= j < 8 ->
      Z.testbit (nth i iv 0) j =
      if ((i =? 8)%nat || (i =? 12)%nat) && (j =? 7) then false
      else Z.testbit (nth i v 0) j.
Proof.
  intros Hv. destruct (bitAnd_mask v Hv) as (E & L).
  exists (siv.andLoop v siv.mask). split; [ exact E | ]. split; [ exact L | ].
  intros i j Hi Hj.
  rewrite nth_andLoop by (now rewrite Hv).
  rewrite nth_mask by exact Hi.
  destruct ((i =? 8)%nat || (i =? 12)%nat); cbn [andb].
  - change 127 with (Z.ones 7). rewrite land_ones_bits by lia.
    destruct (Z.eqb_spec j 7) as [-> | Hne].
    + now rewrite andb_false_r.
    + destruct (Z.ltb_spec j 7); [ now rewrite andb_true_r | lia ].
  - change 255 with (Z.ones 8). rewrite land_ones_bits by lia.
    destruct (Z.ltb_spec j 8); [ now rewrite andb_true_r | lia ].
Qed.

Lemma mask_clears_word_top_bits_witness :
  exists iv,
    siv.bitAnd (repeat 255 16) siv.mask = Some iv /\ length iv = 16%nat /\
    forall (i : nat) (j : Z),
      (i < 16)%nat -> 0 <= j < 8 ->
      Z.testbit (nth i iv 0) j =
      if ((i =? 8)%nat || (i =? 12)%nat) && (j =? 7) then false
      else Z.testbit (nth i (repeat 255 16) 0) j.
Proof.
  apply (mask_clears_word_top_bits (repeat 255 16)). reflexivity.
Defined.

(** ** S2V *)

(** C5. [s2v] is the fold of the specification: [CMAC(key, one)] on the
    empty AAD list; otherwise [D] starts as [CMAC(key, zero)], each AAD
    element in list order gives [D = dbl(D) XOR CMAC(key, element)], the
    message of 16 bytes or more gets [D] XORed into its last 16 bytes, a
    shorter one gives [dbl(D) XOR pad(message)], and the result is the CMAC
    of that.  A panic of the program is a [None] on both sides. *)
Theorem s2v_is_spec (AES : list Z -> cipher.Block) (key : list Z)
    (aad : list (list Z)) (message : list Z) :
  siv.s2v AES key aad message = s2v_spec AES key aad message.
Proof.
  unfold siv.s2v, s2v_spec.
  destruct aad as [| x aad]; [ reflexivity | ].
  cbn [length Nat.eqb].
  destruct (cmac.Sum AES key siv.zero) as [d0 |] eqn:E0; cbn [bind];
    [ | now rewrite (fold_panic AES key (x :: aad)) ].
  pose proof (s2vLoop_fold AES key (x :: aad) [] d0) as F.
  cbn [app length] in F. rewrite F. clear F.
  destruct (fold_left (foldStep AES key) (x :: aad) (Some d0)) as [d |] eqn:Ed;
    cbn [bind]; [ | reflexivity ].
  assert (Ld : length d = 16%nat).
  { apply (fold_length AES key (x :: aad) (Some d0) d); [ | exact Ed ].
    intros d1 [= <-]. exact (Sum_inv AES key siv.zero d0 E0). }
  destruct (Nat.leb_spec 16 (length message)) as [L | L]; [ | reflexivity ].
  now rewrite (proj1 (xorEnd_16 message d L Ld)).
Qed.

(** ** CMAC finalization *)

(** C6. [Sum] on a context with 16-byte chaining value and subkeys: with
    no data written the last block is [pad(empty) XOR K2]; with a tail of
    exactly 16 bytes it is [tail XOR K1]; with a longer tail the first 16
    bytes go through the chaining step and the last block is
    [pad(rest) XOR K2]; the tag, appended to [b], is the encryption of the
    chaining value XOR the last block. *)
Theorem Sum_last_block (c : cmac.cmac) (b : list Z) :
  ready c ->
  (cmac.hadData c = false ->
   cmac.cmac_Sum c b =
   Some (c, b ++ tagOf c (cmac.state c)
                   (common.xorLoop (common.Padding []) (cmac.k2 c)))) /\
  (cmac.hadData c = true -> length (cmac.accumulator c) = 16%nat ->
   cmac.cmac_Sum c b =
   Some (c, b ++ tagOf c (cmac.state c)
                   (common.xorLoop (cmac.accumulator c) (cmac.k1 c)))) /\
  (cmac.hadData c = true -> (16 < length (cmac.accumulator c) < 32)%nat ->
   cmac.cmac_Sum c b =
   Some (c, b ++ tagOf c (chain c (firstn 16 (cmac.accumulator c)))
                   (common.xorLoop
                      (common.Padding (skipn 16 (cmac.accumulator c)))
                      (cmac.k2 c)))).
Proof.
  intros Hr. unfold cmac.cmac_Sum. repeat split.
  - intros Hd. now rewrite Sum_body_noData.
  - intros Hd Ha. now rewrite Sum_body_fullBlock.
  - intros Hd Ha. now rewrite Sum_body_drain.
Qed.

Lemma sampleContext_ready (had : bool) (tail : list Z) :
  ready (sampleContext had tail).
Proof. repeat split. Qed.

Lemma Sum_last_block_witness :
  cmac.cmac_Sum (sampleContext false []) [] =
  Some (sampleContext false [],
        [128; 5; 10; 15; 20; 25; 30; 35; 40; 45; 50; 55; 60; 65; 70; 75]) /\
  cmac.cmac_Sum (sampleContext true (repeat 1 16)) [] =
  Some (sampleContext true (repeat 1 16),
        [1; 4; 7; 10; 13; 16; 19; 22; 25; 28; 31; 34; 37; 40; 43; 46]) /\
  cmac.cmac_Sum (sampleContext true (repeat 1 20)) [] =
  Some (sampleContext true (repeat 1 20),
        [0; 8; 12; 12; 153; 23; 37; 27; 49; 55; 45; 43; 73; 71; 69; 59]).
Proof.
  split; [ | split ].
  - exact (proj1 (Sum_last_block (sampleContext false []) []
                    (sampleContext_ready _ _)) eq_refl).
  - exact (proj1 (proj2 (Sum_last_block (sampleContext true (repeat 1 16)) []
                           (sampleContext_ready _ _))) eq_refl eq_refl).
  - refine (proj2 (proj2 (Sum_last_block (sampleContext true (repeat 1 20)) []
                            (sampleContext_ready _ _))) eq_refl _).
    simpl. lia.
Defined.

(** ** The finalized flag *)

(** [Write] refuses a context whose [finished] flag is set and consumes
    nothing. *)
Lemma Write_finished (c : cmac.cmac) (p : list Z) :
  cmac.finished c = true ->
  cmac.cmac_Write c p = Some (c, (0%nat, Some errAlreadyFinished)).
Proof. intros H. unfold cmac.cmac_Write. now rewrite H. Qed.

(** The body of [Sum] sets the flag, in the copy it runs on. *)
Lemma Sum_body_finishes (c c' : cmac.cmac) (b out : list Z) :
  cmac.cmac_Sum_body c b = Some (c', out) -> cmac.finished c' = true.
Proof.
  unfold cmac.cmac_Sum_body.
  repeat match goal with
         | |- context [bind ?x _] =>
             destruct x; cbn [bind]; [ | discriminate ]
         end.
  now intros [= <- _].
Qed.

(** The caller of [Sum] keeps the context it passed. *)
Lemma cmac_Sum_keeps (c c' : cmac.cmac) (b out : list Z) :
  cmac.cmac_Sum c b = Some (c', out) -> c' = c.
Proof.
  unfold cmac.cmac_Sum. destruct (cmac.cmac_Sum_body c b); cbn [bind];
    [ | discriminate ].
  now intros [= <- _].
Qed.

(** C3, on the program. After [NewCmac], [Write], [Sum], the flag is set
    only in the copy [Sum] ran on: the context itself is not finalized,
    and the next [Write], with no [Reset] in between, is accepted with no
    error and consumes its byte. *)
Theorem Write_after_Sum_accepted (AES : list Z -> cipher.Block) :
  exists c0 c1 c2 copy tag,
    cmac.NewCmac AES (repeat 0 16) = Some (Ok c0) /\
    cmac.cmac_Write c0 [1] = Some (c1, (1%nat, None)) /\
    cmac.cmac_Sum_body c1 [] = Some (copy, tag) /\
    cmac.finished copy = true /\
    cmac.cmac_Sum c1 [] = Some (c1, tag) /\
    cmac.finished c1 = false /\
    cmac.cmac_Write c1 [2] = Some (c2, (1%nat, None)) /\
    cmac.accumulator c2 = [1; 2].
Proof.
  destruct (NewCmac_ok AES (repeat 0 16)) as (c0 & E0 & R0 & A0 & F0 & D0 & _);
    [ left; reflexivity | ].
  assert (W1 : cmac.cmac_Write c0 [1] =
               Some (cmac.set_accumulator (cmac.set_hadData c0 true) [1],
                     (1%nat, None))).
  { unfold cmac.cmac_Write. rewrite F0. cbn [length Nat.eqb].
    cbn [cmac.accumulator cmac.set_accumulator cmac.set_hadData].
    rewrite A0. reflexivity. }
  set (c1 := cmac.set_accumulator (cmac.set_hadData c0 true) [1]) in *.
  assert (R1 : ready c1) by exact R0.
  destruct (cmac_Sum_some c1 [] R1) as (t & S1 & _); [ simpl; lia | ].
  destruct (cmac.cmac_Sum_body c1 []) as [[copy tag] |] eqn:B1;
    [ | unfold cmac.cmac_Sum in S1; rewrite B1 in S1; discriminate ].
  assert (Et : tag = [] ++ t).
  { unfold cmac.cmac_Sum in S1. rewrite B1 in S1. cbn [bind snd] in S1.
    congruence. }
  exists c0, c1, (cmac.set_accumulator c1 [1; 2]), copy, tag.
  split; [ exact E0 | ]. split; [ exact W1 | ]. split; [ exact B1 | ].
  split; [ exact (Sum_body_finishes c1 copy [] tag B1) | ].
  split; [ now rewrite Et | ].
  split; [ exact F0 | ].
  split; [ | reflexivity ].
  unfold cmac.cmac_Write. change (cmac.finished c1) with (cmac.finished c0).
  rewrite F0. reflexivity.
Qed.

(** ** Construction *)

Lemma sivKeyLength_dec (n : nat) : {sivKeyLength n} + {~ sivKeyLength n}.
Proof.
  unfold sivKeyLength.
  destruct (Nat.eq_dec n 32), (Nat.eq_dec n 48), (Nat.eq_dec n 64);
    try (left; tauto); right; tauto.
Defined.

Lemma NewAesSIV_ok (key : list Z) :
  sivKeyLength (length key) -> siv.NewAesSIV key = Ok {| siv.key := key |}.
Proof. unfold siv.NewAesSIV. intros [-> | [-> | ->]]; reflexivity. Qed.

Lemma NewAesSIV_bad (key : list Z) :
  ~ sivKeyLength (length key) ->
  siv.NewAesSIV key = Err errKeySizeNotSupported.
Proof.
  unfold sivKeyLength, siv.NewAesSIV. intros H.
  remember (length key) as n eqn:E. clear E.
  do 65 (destruct n as [| n]; [ try reflexivity; exfalso; apply H; lia | ]).
  reflexivity.
Qed.

Lemma NewAesSIV_inv (key : list Z) (a : siv.aessiv) :
  siv.NewAesSIV key = Ok a ->
  sivKeyLength (length key) /\ a = {| siv.key := key |}.
Proof.
  intros H. destruct (sivKeyLength_dec (length key)) as [Hk | Hk].
  - rewrite (NewAesSIV_ok key Hk) in H. injection H as <-. now split.
  - rewrite (NewAesSIV_bad key Hk) in H. discriminate.
Qed.

(** C7. [NewAesSIV] accepts exactly the keys of 32, 48 and 64 bytes and
    rejects every other with the key-size error; for an accepted key the
    MAC key is its first half and the encryption key its second half, and
    the sealed output is the 16-byte synthetic vector followed by one
    stream byte per plaintext byte, appended to [dst]: 16 + len(plaintext)
    bytes. *)
Theorem NewAesSIV_and_wire_format (AES : list Z -> cipher.Block)
    (key dst pt : list Z) (aad : list (list Z)) :
  (sivKeyLength (length key) ->
   siv.NewAesSIV key = Ok {| siv.key := key |}) /\
  (~ sivKeyLength (length key) ->
   siv.NewAesSIV key = Err errKeySizeNotSupported) /\
  (forall a : siv.aessiv,
      siv.NewAesSIV key = Ok a ->
      macKeyOf a ++ encKeyOf a = key /\
      length (macKeyOf a) = length (encKeyOf a) /\
      exists v body,
        siv.s2v AES (macKeyOf a) aad pt = Some v /\
        body = cipher.xorBytes pt (ctrStream AES a v (length pt)) /\
        siv.SealWithMultipleAAD AES a dst pt aad = Some (dst ++ v ++ body) /\
        length v = 16%nat /\ length body = length pt /\
        length (v ++ body) = (16 + length pt)%nat).
Proof.
  split; [ apply NewAesSIV_ok | ]. split; [ apply NewAesSIV_bad | ].
  intros a Ha. apply NewAesSIV_inv in Ha. destruct Ha as (Hk & ->).
  split; [ apply firstn_skipn | ].
  split.
  { unfold macKeyOf, encKeyOf. rewrite length_firstn, length_skipn.
    cbn [siv.key]. destruct Hk as [-> | [-> | ->]]; reflexivity. }
  destruct (Seal_some AES {| siv.key := key |} dst pt aad Hk)
    as (v & Hv & Lv & Hs).
  exists v, (cipher.xorBytes pt (ctrStream AES {| siv.key := key |} v (length pt))).
  assert (Lb : length (cipher.xorBytes pt
                         (ctrStream AES {| siv.key := key |} v (length pt)))
               = length pt)
    by (apply xorBytes_length, stream_covers).
  split; [ exact Hv | ]. split; [ reflexivity | ].
  split; [ now rewrite Hs, <- app_assoc | ].
  split; [ exact Lv | ]. split; [ exact Lb | ].
  rewrite length_app, Lv, Lb. reflexivity.
Qed.

Lemma NewAesSIV_and_wire_format_witness :
  siv.NewAesSIV (repeat 9 48) = Ok {| siv.key := repeat 9 48 |} /\
  siv.NewAesSIV (repeat 9 16) = Err errKeySizeNotSupported /\
  exists v body,
    siv.s2v sampleAES (macKeyOf {| siv.key := repeat 9 48 |}) [[1]; []] [5; 6; 7]
    = Some v /\
    body = cipher.xorBytes [5; 6; 7]
             (ctrStream sampleAES {| siv.key := repeat 9 48 |} v 3) /\
    siv.SealWithMultipleAAD sampleAES {| siv.key := repeat 9 48 |} [] [5; 6; 7]
      [[1]; []] = Some ([] ++ v ++ body) /\
    length v = 16%nat /\ length body = 3%nat /\
    length (v ++ body) = 19%nat.
Proof.
  split; [ | split ].
  - apply (proj1 (NewAesSIV_and_wire_format sampleAES (repeat 9 48) [] [] [])).
    right; left; reflexivity.
  - apply (proj1 (proj2 (NewAesSIV_and_wire_format sampleAES (repeat 9 16)
                           [] [] []))).
    unfold sivKeyLength. simpl. lia.
  - apply (proj2 (proj2 (NewAesSIV_and_wire_format sampleAES (repeat 9 48)
                           [] [5; 6; 7] [[1]; []]))
             {| siv.key := repeat 9 48 |}).
    reflexivity.
Defined.

(** ** Seal and Open *)

(** C8. [Seal] is a function of the key, the AAD and the plaintext (and of
    [dst], which it appends to): the nonce has no effect on its output. *)
Theorem Seal_ignores_nonce (AES : list Z -> cipher.Block) (a : siv.aessiv)
    (dst nonce1 nonce2 plaintext additionalData : list Z) :
  siv.Seal AES a dst nonce1 plaintext additionalData =
  siv.Seal AES a dst nonce2 plaintext additionalData.
Proof. unfold siv.Seal. reflexivity. Qed.

(** C10. The single-AAD entry points pass the one-element list
    [[additionalData]], also for an empty [additionalData]; [s2v] on a
    one-element list starts from [CMAC(key, zero)] and runs one fold step
    over the element: [CMAC(key, one)] is not computed. *)
Theorem single_AAD_is_one_element_list (AES : list Z -> cipher.Block)
    (a : siv.aessiv) (dst nonce plaintext ciphertext additionalData : list Z) :
  siv.Seal AES a dst nonce plaintext additionalData =
  siv.SealWithMultipleAAD AES a dst plaintext [additionalData] /\
  siv.Open AES a dst nonce ciphertext additionalData =
  siv.OpenWithMultipleAAD AES a dst ciphertext [additionalData] /\
  forall k message : list Z,
    siv.s2v AES k [additionalData] message =
    (d0 <- cmac.Sum AES k siv.zero;;
     dd <- siv.dbl d0;;
     m <- cmac.Sum AES k additionalData;;
     d <- common.Xor dd m;;
     t <- (if (16 <=? length message)%nat then siv.xorEnd message d
           else dd' <- siv.dbl d;; common.Xor dd' (common.Padding message));;
     cmac.Sum AES k t).
Proof.
  split; [ reflexivity | ]. split; [ reflexivity | ].
  intros k message. unfold siv.s2v.
  cbn [length Nat.eqb siv.s2vLoop nth].
  destruct (cmac.Sum AES k siv.zero) as [d0 |]; cbn [bind]; [ | reflexivity ].
  destruct (siv.dbl d0) as [dd |]; cbn [bind]; [ | reflexivity ].
  destruct (cmac.Sum AES k additionalData) as [m |]; cbn [bind];
    [ | reflexivity ].
  destruct (common.Xor dd m) as [d |]; cbn [bind]; reflexivity.
Qed.

(** The two paths of [s2v] on no AAD and on one empty AAD element give
    different vectors under the stand-in cipher. *)
Example s2v_empty_list_vs_empty_element :
  siv.s2v sampleAES (repeat 1 16) [] [7] <>
  siv.s2v sampleAES (repeat 1 16) [[]] [7].
Proof. vm_compute. discriminate. Qed.

(** Sealing into an empty [dst] and opening: a plaintext of at least one
    byte comes back. *)
Lemma roundtrip_nonempty (AES : list Z -> cipher.Block) (a : siv.aessiv)
    (dst pt : list Z) (aad : list (list Z)) :
  sivKeyLength (length (siv.key a)) -> (1 <= length pt)%nat ->
  exists ct,
    siv.SealWithMultipleAAD AES a [] pt aad = Some ct /\
    length ct = (16 + length pt)%nat /\
    siv.OpenWithMultipleAAD AES a dst ct aad = Some (dst ++ pt, None).
Proof.
  intros Hk Hp.
  destruct (Seal_some AES a [] pt aad Hk) as (v & Hv & Lv & Hs).
  set (body := cipher.xorBytes pt (ctrStream AES a v (length pt))) in *.
  assert (Lb : length body = length pt)
    by (apply xorBytes_length, stream_covers).
  cbn [app] in Hs. exists (v ++ body).
  split; [ exact Hs | ].
  assert (Lc : length (v ++ body) = (16 + length pt)%nat)
    by (rewrite length_app; lia).
  split; [ exact Lc | ].
  destruct (Open_some AES a dst (v ++ body) aad Hk) as (t & Ht & _ & Ho);
    [ lia | ].
  assert (F : firstn 16 (v ++ body) = v).
  { rewrite firstn_app, Lv, Nat.sub_diag, firstn_all2 by lia.
    cbn [firstn]. apply app_nil_r. }
  assert (S : skipn 16 (v ++ body) = body).
  { rewrite skipn_app, Lv, Nat.sub_diag, skipn_all2 by lia. reflexivity. }
  rewrite F, S in Ho, Ht. rewrite Lb in Ho, Ht.
  assert (P : cipher.xorBytes body (ctrStream AES a v (length pt)) = pt)
    by (apply xorBytes_involutive, stream_covers).
  rewrite P in Ho, Ht.
  assert (t = v) as -> by congruence.
  now rewrite ConstantTimeCompare_refl in Ho.
Qed.

(** The sealed empty plaintext is the bare 16-byte vector, which [Open]
    rejects for its length, whatever the cipher. *)
Lemma Open_sealed_empty (AES : list Z -> cipher.Block) (a : siv.aessiv)
    (dst : list Z) (aad : list (list Z)) :
  sivKeyLength (length (siv.key a)) ->
  exists ct,
    siv.SealWithMultipleAAD AES a [] [] aad = Some ct /\
    length ct = 16%nat /\
    siv.OpenWithMultipleAAD AES a dst ct aad =
    Some ([], Some errInvalidCiphertextLength).
Proof.
  intros Hk.
  destruct (Seal_some AES a [] [] aad Hk) as (v & _ & Lv & Hs).
  cbn [app cipher.xorBytes] in Hs. rewrite app_nil_r in Hs.
  exists v. split; [ exact Hs | ]. split; [ exact Lv | ].
  unfold siv.OpenWithMultipleAAD. now rewrite Lv.
Qed.

(** C1, as stated, fails at the empty plaintext: under the all-zero 32-byte
    key and the empty AAD list, [Open] of the sealed output returns the
    ciphertext-length error and no plaintext. *)
Lemma roundtrip_empty_plaintext_rejected :
  siv.NewAesSIV (repeat 0 32) = Ok {| siv.key := repeat 0 32 |} /\
  (ct <- siv.SealWithMultipleAAD sampleAES {| siv.key := repeat 0 32 |} [] [] [];;
   siv.OpenWithMultipleAAD sampleAES {| siv.key := repeat 0 32 |} [] ct [])
  = Some ([], Some errInvalidCiphertextLength).
Proof. split; vm_compute; reflexivity. Qed.

(** C1, amended. For every key of 32, 48 or 64 bytes, every plaintext of
    1 to 127 bytes and every AAD list, opening the sealed output with the
    same key and AAD list succeeds and returns the plaintext. *)
Theorem roundtrip (AES : list Z -> cipher.Block) (key : list Z)
    (a : siv.aessiv) (pt : list Z) (aad : list (list Z)) :
  siv.NewAesSIV key = Ok a ->
  (1 <= length pt <= 127)%nat ->
  exists ct,
    siv.SealWithMultipleAAD AES a [] pt aad = Some ct /\
    siv.OpenWithMultipleAAD AES a [] ct aad = Some (pt, None).
Proof.
  intros Ha Hp. apply NewAesSIV_inv in Ha. destruct Ha as (Hk & ->).
  destruct (roundtrip_nonempty AES {| siv.key := key |} [] pt aad Hk)
    as (ct & Hs & _ & Ho); [ lia | ].
  exists ct. now split.
Qed.

Lemma roundtrip_witness :
  exists ct,
    siv.SealWithMultipleAAD sampleAES {| siv.key := repeat 3 64 |} []
      [1; 2; 3] [[]; [4; 5]] = Some ct /\
    siv.OpenWithMultipleAAD sampleAES {| siv.key := repeat 3 64 |} []
      ct [[]; [4; 5]] = Some ([1; 2; 3], None).
Proof.
  apply (roundtrip sampleAES (repeat 3 64) {| siv.key := repeat 3 64 |}
           [1; 2; 3] [[]; [4; 5]]).
  - reflexivity.
  - simpl. lia.
Defined.

(** C4. [Open] under a constructed key: an input shorter than 17 bytes
    gives the ciphertext-length error; a longer one gives the integrity
    error exactly when the vector recomputed over the decrypted text
    differs from the first 16 bytes of the input, and the decrypted text
    otherwise; with every error the slice returned is nil. *)
Theorem Open_failure_contract (AES : list Z -> cipher.Block) (key : list Z)
    (a : siv.aessiv) (dst ct : list Z) (aad : list (list Z)) :
  siv.NewAesSIV key = Ok a ->
  ((length ct < 17)%nat ->
   siv.OpenWithMultipleAAD AES a dst ct aad =
   Some ([], Some errInvalidCiphertextLength)) /\
  ((17 <= length ct)%nat ->
   exists t,
     siv.s2v AES (macKeyOf a) aad (openedText AES a ct) = Some t /\
     (t <> firstn 16 ct ->
      siv.OpenWithMultipleAAD AES a dst ct aad =
      Some ([], Some errIntegrityError)) /\
     (t = firstn 16 ct ->
      siv.OpenWithMultipleAAD AES a dst ct aad =
      Some (dst ++ openedText AES a ct, None))) /\
  (forall (out : list Z) (e : error),
      siv.OpenWithMultipleAAD AES a dst ct aad = Some (out, Some e) ->
      out = []).
Proof.
  intros Ha. apply NewAesSIV_inv in Ha. destruct Ha as (Hk & ->).
  set (a := {| siv.key := key |}) in *.
  assert (Short : (length ct < 17)%nat ->
                  siv.OpenWithMultipleAAD AES a dst ct aad =
                  Some ([], Some errInvalidCiphertextLength)).
  { intros L. unfold siv.OpenWithMultipleAAD, siv.blockSize.
    destruct (Nat.ltb_spec (length ct) (16 + 1)); [ reflexivity | lia ]. }
  assert (Long : (17 <= length ct)%nat ->
                 exists t,
                   siv.s2v AES (macKeyOf a) aad (openedText AES a ct) = Some t /\
                   siv.OpenWithMultipleAAD AES a dst ct aad =
                   Some (if subtle.ConstantTimeCompare t (firstn 16 ct) =? 1
                         then (dst ++ openedText AES a ct, None)
                         else ([], Some errIntegrityError))).
  { intros L. destruct (Open_some AES a dst ct aad Hk L) as (t & Ht & _ & Ho).
    exists t. now split. }
  split; [ exact Short | ]. split.
  - intros L. destruct (Long L) as (t & Ht & Ho). exists t.
    split; [ exact Ht | ].
    pose proof (ConstantTimeCompare_eq t (firstn 16 ct)) as C.
    destruct (subtle.ConstantTimeCompare t (firstn 16 ct) =? 1).
    + split; [ intros N; elim N; now apply C | intros _; exact Ho ].
    + split; [ intros _; exact Ho | intros E; apply C in E; discriminate ].
  - intros out e H.
    destruct (Nat.lt_ge_cases (length ct) 17) as [L | L].
    + rewrite (Short L) in H. congruence.
    + destruct (Long L) as (t & _ & Ho). rewrite Ho in H.
      destruct (subtle.ConstantTimeCompare t (firstn 16 ct) =? 1); congruence.
Qed.

Lemma Open_failure_contract_witness :
  siv.OpenWithMultipleAAD sampleAES {| siv.key := repeat 0 32 |} [] (repeat 0 16) [[1]]
  = Some ([], Some errInvalidCiphertextLength) /\
  exists t,
    siv.s2v sampleAES (macKeyOf {| siv.key := repeat 0 32 |}) [[1]]
      (openedText sampleAES {| siv.key := repeat 0 32 |} (repeat 0 17)) = Some t /\
    (t <> firstn 16 (repeat 0 17) ->
     siv.OpenWithMultipleAAD sampleAES {| siv.key := repeat 0 32 |} []
       (repeat 0 17) [[1]] = Some ([], Some errIntegrityError)) /\
    (t = firstn 16 (repeat 0 17) ->
     siv.OpenWithMultipleAAD sampleAES {| siv.key := repeat 0 32 |} []
       (repeat 0 17) [[1]] =
     Some ([] ++ openedText sampleAES {| siv.key := repeat 0 32 |} (repeat 0 17),
           None)).
Proof.
  split.
  - apply (proj1 (Open_failure_contract sampleAES (repeat 0 32)
                    {| siv.key := repeat 0 32 |} [] (repeat 0 16) [[1]]
                    eq_refl)).
    simpl. lia.
  - apply (proj1 (proj2 (Open_failure_contract sampleAES (repeat 0 32)
                           {| siv.key := repeat 0 32 |} [] (repeat 0 17) [[1]]
                           eq_refl))).
    simpl. lia.
Defined.

(** * Further properties of the code *)

(** ** The MAC of a stream *)

Section Stream.

Import cmac.

Lemma cbcChain_app (b : cipher.Block) (n : nat) :
  forall st D p : list Z,
    (16 * n <= length D)%nat ->
    cbcChain b n st (D ++ p) = cbcChain b n st D.
Proof.
  induction n as [| n IH]; intros st D p H; [ reflexivity | ].
  cbn [cbcChain].
  rewrite firstn_app, skipn_app.
  replace (16 - length D)%nat with 0%nat by lia.
  rewrite firstn_O, skipn_O, app_nil_r.
  apply IH. rewrite length_skipn. lia.
Qed.

Lemma cbcChain_add (b : cipher.Block) (n k : nat) :
  forall st D : list Z,
    cbcChain b (n + k) st D =
    cbcChain b k (cbcChain b n st D) (skipn (16 * n) D).
Proof.
  induction n as [| n IH]; intros st D; [ reflexivity | ].
  cbn [cbcChain Nat.add]. rewrite IH, skipn_skipn.
  do 2 f_equal. lia.
Qed.

Lemma cbcChain_length (b : cipher.Block) (n : nat) :
  forall st D : list Z,
    length st = 16%nat -> length (cbcChain b n st D) = 16%nat.
Proof.
  induction n as [| n IH]; intros st D H; [ exact H | ].
  cbn [cbcChain]. apply IH, cipher.encryptBlock_length.
Qed.

Lemma writeLoop_chain (n : nat) :
  forall c : cmac,
    length (state c) = 16%nat ->
    (16 * n <= length (accumulator c))%nat ->
    exists c',
      writeLoop n c = Some c' /\ sameKeys c c' /\
      state c' = cbcChain (aesEncryptor c) n (state c) (accumulator c) /\
      accumulator c' = skipn (16 * n) (accumulator c).
Proof.
  induction n as [| n IH]; intros c Hs Hacc.
  - exists c. repeat split; auto.
  - cbn [writeLoop].
    rewrite writeFullBlock_some
      by (auto; unfold blockSize; rewrite length_firstn; lia).
    cbn [bind].
    set (c1 := set_accumulator _ _).
    destruct (IH c1) as (c' & Hrun & Hk & Hs' & Ha').
    + subst c1. cbn. apply cipher.encryptBlock_length.
    + subst c1. cbn [accumulator set_accumulator set_state].
      unfold blockSize. rewrite length_skipn. lia.
    + exists c'. split; [ exact Hrun | ].
      subst c1. unfold sameKeys in *.
      cbn [accumulator set_accumulator set_state aesEncryptor key k1 k2
           finished hadData state] in *.
      split; [ tauto | ].
      split; [ rewrite Hs'; reflexivity | ].
      rewrite Ha'. unfold blockSize. rewrite skipn_skipn.
      f_equal. lia.
Qed.

(** [Write] keeps the account of what was written. *)
Lemma Write_holds (c : cmac) (D p : list Z) :
  holds c D ->
  exists c',
    cmac_Write c p = Some (c', (length p, None)) /\ holds c' (D ++ p) /\
    aesEncryptor c' = aesEncryptor c /\ key c' = key c /\
    k1 c' = k1 c /\ k2 c' = k2 c.
Proof.
  intros (Hr & Hf & n & Hn & Ha & Hst & Hlt & He & Hne).
  destruct p as [| x p].
  - exists c. rewrite app_nil_r. unfold cmac_Write. rewrite Hf.
    split; [ reflexivity | ]. split; [ | repeat split ].
    split; [ exact Hr | ]. split; [ exact Hf | ].
    exists n. exact (conj Hn (conj Ha (conj Hst (conj Hlt (conj He Hne))))).
  - unfold cmac_Write. rewrite Hf. cbn [length Nat.eqb].
    set (q := x :: p). change (S (length p)) with (length q).
    cbn [accumulator set_accumulator set_hadData].
    assert (Hq : D ++ q <> []) by (destruct D; discriminate).
    remember (accumulator c ++ q) as acc0 eqn:Eacc.
    assert (E0 : acc0 = skipn (16 * n) (D ++ q)).
    { rewrite Eacc, Ha, skipn_app.
      replace (16 * n - length D)%nat with 0%nat by lia. reflexivity. }
    assert (L0 : length acc0 = (length D + length q - 16 * n)%nat)
      by (rewrite E0, length_skipn, length_app; reflexivity).
    assert (Lq : (1 <= length q)%nat) by (unfold q; simpl; lia).
    assert (LD : length (D ++ q) = (length D + length q)%nat)
      by apply length_app.
    clear Eacc.
    destruct Hr as (Hs & Hk1 & Hk2).
    set (c0 := set_accumulator (set_hadData c true) acc0).
    pose proof (Nat.div_mod_eq (length acc0) 16) as Dv.
    pose proof (Nat.mod_upper_bound (length acc0) 16) as Ub.
    unfold blockSize.
    destruct (Nat.leb_spec (length acc0 / 16) 1) as [Hle | Hgt].
    + exists c0. split; [ reflexivity | ].
      split; [ | repeat split ].
      split; [ repeat split; assumption | ].
      split; [ exact Hf | ].
      exists n. split; [ lia | ]. split; [ exact E0 | ].
      split.
      { subst c0. cbn [state aesEncryptor set_accumulator set_hadData].
        rewrite Hst. symmetry. now apply cbcChain_app. }
      subst c0. cbn [accumulator hadData set_accumulator set_hadData].
      split; [ lia | ].
      split; [ intros E; now elim Hq | ].
      intros _. split; [ reflexivity | lia ].
    + set (k := (length acc0 / 16 - 1)%nat).
      destruct (writeLoop_chain k c0) as (c' & Hrun & Hk & Hs' & Ha');
        [ exact Hs | subst c0 k; cbn [accumulator set_accumulator]; lia | ].
      rewrite Hrun. cbn [bind]. exists c'.
      destruct Hk as (Ke & Kk & K1 & K2 & Kf & Kd).
      subst c0.
      cbn [set_accumulator set_hadData aesEncryptor key k1 k2 finished
           hadData state accumulator] in Ke, Kk, K1, K2, Kf, Kd, Hs', Ha'.
      assert (La' : length (accumulator c') = (length acc0 - 16 * k)%nat)
        by (rewrite Ha', length_skipn; reflexivity).
      split; [ reflexivity | ].
      split; [ | repeat split; assumption ].
      split.
      { unfold ready. rewrite K1, K2, Hs'.
        repeat split; auto. apply cbcChain_length. exact Hs. }
      split; [ congruence | ].
      exists (n + k)%nat.
      split; [ subst k; lia | ].
      split.
      { rewrite Ha', E0, skipn_skipn. f_equal. lia. }
      split.
      { rewrite Hs', Ke, Hst, cbcChain_add, (cbcChain_app _ n _ D q Hn).
        now rewrite E0. }
      split; [ subst k; lia | ].
      split; [ intros E; now elim Hq | ].
      intros _. split; [ now rewrite Kd | subst k; lia ].
Qed.

(** [Sum] on a context that holds [D] returns the MAC of [D]. *)
Lemma Sum_holds (c : cmac) (D b : list Z) :
  holds c D ->
  cmac_Sum c b = Some (c, b ++ macOf (aesEncryptor c) (k1 c) (k2 c) D).
Proof.
  intros (Hr & Hf & n & Hn & Ha & Hst & Hlt & He & Hne).
  unfold cmac_Sum, macOf.
  destruct D as [| x D'].
  - assert (n = 0%nat) as -> by (simpl in Hn; lia).
    rewrite Sum_body_noData by auto. cbn [bind snd].
    cbn [length Nat.sub Nat.div Nat.divmod fst cbcChain Nat.mul skipn].
    unfold tagOf, lastBlockOf. cbn [length Nat.eqb].
    rewrite Hst. reflexivity.
  - destruct Hne as (Hd & H1); [ discriminate | ].
    set (D := x :: D') in *.
    assert (LD : length D = (16 * n + length (accumulator c))%nat)
      by (rewrite Ha, length_skipn; lia).
    destruct (Nat.lt_trichotomy (length (accumulator c)) 16) as [L | [L | L]].
    + rewrite Sum_body_partial by auto. cbn [bind snd].
      replace ((length D - 1) / 16)%nat with n
        by (apply (Nat.div_unique _ 16 n (length (accumulator c) - 1)); lia).
      unfold tagOf, lastBlockOf. rewrite <- Ha, <- Hst.
      destruct (Nat.eqb_spec (length (accumulator c)) 16); [ lia | reflexivity ].
    + rewrite Sum_body_fullBlock by auto. cbn [bind snd].
      replace ((length D - 1) / 16)%nat with n
        by (apply (Nat.div_unique _ 16 n 15); lia).
      unfold tagOf, lastBlockOf. rewrite <- Ha, <- Hst, L. reflexivity.
    + rewrite Sum_body_drain by (auto; lia). cbn [bind snd].
      replace ((length D - 1) / 16)%nat with (n + 1)%nat
        by (apply (Nat.div_unique _ 16 (n + 1) (length (accumulator c) - 17));
            lia).
      unfold tagOf, lastBlockOf, chain.
      rewrite cbcChain_add, <- Hst, <- Ha. cbn [cbcChain].
      replace (skipn (16 * (n + 1)) D) with (skipn 16 (accumulator c))
        by (rewrite Ha, skipn_skipn; f_equal; lia).
      destruct (Nat.eqb_spec (length (skipn 16 (accumulator c))) 16) as [E | _];
        [ rewrite length_skipn in E; lia | reflexivity ].
Qed.

Lemma dblBytes_length (d : list Z) :
  length d = 16%nat -> length (dblBytes d) = 16%nat.
Proof.
  intros H. unfold dblBytes. destruct (carryOf d).
  - rewrite xorLoop_length; rewrite ShiftLeft_length; exact H.
  - now rewrite ShiftLeft_length.
Qed.

Lemma subKey1_length (b : cipher.Block) : length (subKey1 b) = 16%nat.
Proof. apply dblBytes_length, cipher.encryptBlock_length. Qed.

Lemma subKey2_length (b : cipher.Block) : length (subKey2 b) = 16%nat.
Proof. apply dblBytes_length, subKey1_length. Qed.

(** The inline doubling of [generateSubKey] is [dbl]. *)
Lemma inline_dbl (d : list Z) :
  length d = 16%nat ->
  match d with
  | [] => None
  | d0 :: _ =>
      if Z.land d0 common.Msb =? common.Msb
      then common.Xor (common.ShiftLeft d) rb
      else Some (common.ShiftLeft d)
  end = Some (dblBytes d).
Proof.
  intros H. exact (dbl_value d H).
Qed.

Lemma generateSubKey_value (c : cmac) :
  cmac_generateSubKey c =
  Some (subKey1 (aesEncryptor c), subKey2 (aesEncryptor c)).
Proof.
  unfold cmac_generateSubKey. rewrite Encrypt_zero. cbn [bind].
  rewrite (inline_dbl _ (cipher.encryptBlock_length _ _)). cbn [bind].
  fold (subKey1 (aesEncryptor c)).
  rewrite (inline_dbl _ (subKey1_length _)). reflexivity.
Qed.

Lemma init_value (AES : list Z -> cipher.Block) (k : list Z) (c : cmac) :
  aesEncryptor c = AES k -> key c = k ->
  cmac_init c = Some (freshContext AES k).
Proof.
  intros He Hk. unfold cmac_init. rewrite generateSubKey_value.
  cbn [bind fst snd]. unfold freshContext. now rewrite He, Hk.
Qed.

Lemma NewCmac_value (AES : list Z -> cipher.Block) (k : list Z) :
  macKeyLength (length k) ->
  NewCmac AES k = Some (Ok (freshContext AES k)).
Proof.
  intros Hk. unfold NewCmac. rewrite (NewCipher_ok AES k Hk).
  rewrite (init_value AES k) by reflexivity. cbn [bind].
  destruct Hk as [-> | [-> | ->]]; reflexivity.
Qed.

Lemma fresh_holds (AES : list Z -> cipher.Block) (k : list Z) :
  holds (freshContext AES k) [].
Proof.
  split; [ | split; [ reflexivity | ] ].
  - repeat split; [ apply subKey1_length | apply subKey2_length ].
  - exists 0%nat. cbn [freshContext accumulator state hadData aesEncryptor
                        cbcChain Nat.mul skipn length].
    split; [ lia | ]. split; [ reflexivity | ]. split; [ reflexivity | ].
    split; [ lia | ]. split; [ reflexivity | ]. intros E. now elim E.
Qed.

Lemma writeAll_holds (chunks : list (list Z)) :
  forall (c : cmac) (D : list Z),
    holds c D ->
    exists c',
      writeAll c chunks = Some c' /\ holds c' (D ++ concat chunks) /\
      aesEncryptor c' = aesEncryptor c /\ key c' = key c /\
      k1 c' = k1 c /\ k2 c' = k2 c.
Proof.
  induction chunks as [| p rest IH]; intros c D H.
  - exists c. cbn [writeAll concat]. rewrite app_nil_r.
    split; [ reflexivity | ]. split; [ exact H | ]. repeat split.
  - destruct (Write_holds c D p H) as (c1 & W & H1 & E1 & K1 & A1 & B1).
    destruct (IH c1 (D ++ p) H1) as (c' & W' & H' & E' & K' & A' & B').
    exists c'. cbn [writeAll concat]. rewrite W. cbn [bind snd fst].
    rewrite app_assoc.
    split; [ exact W' | ]. split; [ exact H' | ].
    repeat split; congruence.
Qed.

End Stream.

Lemma Sum_valid (AES : list Z -> cipher.Block) (key data : list Z) :
  macKeyLength (length key) ->
  cmac.Sum AES key data =
  Some (macOf (AES key) (subKey1 (AES key)) (subKey2 (AES key)) data).
Proof.
  intros Hk. unfold cmac.Sum.
  rewrite (NewCmac_value AES key Hk). cbn [bind].
  destruct (Write_holds _ [] data (fresh_holds AES key))
    as (c & -> & H & E & _ & A & B).
  cbn [bind snd fst app] in *.
  rewrite (Sum_holds c data [] H). cbn [bind snd app].
  now rewrite E, A, B.
Qed.

Lemma Sum_invalid (AES : list Z -> cipher.Block) (key data : list Z) :
  ~ macKeyLength (length key) -> cmac.Sum AES key data = None.
Proof.
  intros Hk. unfold cmac.Sum. now rewrite (NewCmac_bad AES key Hk).
Qed.

(** The MAC of a message depends on the message alone, not on how it is
    cut into blocks by the calls: [cmac.Sum(key, data)] is, for a key of
    16, 24 or 32 bytes, the encryption of the last block XORed with the
    CBC chain of the blocks before it, the last block taking K1 when it is
    full and padding and K2 otherwise; for any other key it panics. *)
Theorem Sum_is_macOf (AES : list Z -> cipher.Block) (key data : list Z) :
  (macKeyLength (length key) ->
   cmac.Sum AES key data =
   Some (macOf (AES key) (subKey1 (AES key)) (subKey2 (AES key)) data)) /\
  (~ macKeyLength (length key) -> cmac.Sum AES key data = None).
Proof.
  split; [ apply Sum_valid | apply Sum_invalid ].
Qed.

Lemma Sum_is_macOf_witness :
  cmac.Sum sampleAES (repeat 5 24) (repeat 1 40) =
  Some (macOf (sampleAES (repeat 5 24)) (subKey1 (sampleAES (repeat 5 24)))
          (subKey2 (sampleAES (repeat 5 24))) (repeat 1 40)) /\
  cmac.Sum sampleAES (repeat 5 20) (repeat 1 40) = None.
Proof.
  split.
  - apply (proj1 (Sum_is_macOf sampleAES (repeat 5 24) (repeat 1 40))).
    right; left; reflexivity.
  - apply (proj2 (Sum_is_macOf sampleAES (repeat 5 20) (repeat 1 40))).
    unfold macKeyLength. simpl. lia.
Defined.

(** Writing a message in pieces gives the tag of the whole: [NewCmac],
    any sequence of [Write] calls (empty ones included), then [Sum(nil)]
    returns what [cmac.Sum] returns on the concatenation, and panics when
    it does. *)
Theorem chunked_writes_give_the_same_tag (AES : list Z -> cipher.Block)
    (key : list Z) (chunks : list (list Z)) :
  sumOfWrites AES key chunks = cmac.Sum AES key (concat chunks).
Proof.
  destruct (macKeyLength_dec (length key)) as [Hk | Hk].
  - rewrite (Sum_valid AES key (concat chunks) Hk).
    unfold sumOfWrites. rewrite (NewCmac_value AES key Hk). cbn [bind].
    destruct (writeAll_holds chunks _ [] (fresh_holds AES key))
      as (c & -> & H & E & _ & A & B).
    cbn [bind app] in *.
    rewrite (Sum_holds c (concat chunks) [] H). cbn [bind snd app].
    now rewrite E, A, B.
  - rewrite (Sum_invalid AES key (concat chunks) Hk).
    unfold sumOfWrites. now rewrite (NewCmac_bad AES key Hk).
Qed.

(** ** New contexts and Reset *)

Lemma NewCmac_inv (AES : list Z -> cipher.Block) (key : list Z)
    (c0 : cmac.cmac) :
  cmac.NewCmac AES key = Some (Ok c0) ->
  macKeyLength (length key) /\ c0 = freshContext AES key.
Proof.
  intros H. destruct (macKeyLength_dec (length key)) as [Hk | Hk].
  - rewrite (NewCmac_value AES key Hk) in H. injection H as <-. now split.
  - rewrite (NewCmac_bad AES key Hk) in H. discriminate.
Qed.

(** [NewCmac] returns a context for the keys of 16, 24 and 32 bytes and
    the key-size error for every other key, and never panics; the context
    has a zero chaining value, nothing retained, both flags clear, and the
    subkeys K1 = dbl(E(0)) and K2 = dbl(K1), with the [dbl] of package
    siv. *)
Theorem NewCmac_builds_subkeys (AES : list Z -> cipher.Block) (key : list Z) :
  (macKeyLength (length key) ->
   cmac.NewCmac AES key = Some (Ok (freshContext AES key))) /\
  (~ macKeyLength (length key) ->
   cmac.NewCmac AES key = Some (Err errUnsupportedKeySize)) /\
  siv.dbl (cipher.encryptBlock (AES key) cmac.zero) =
  Some (cmac.k1 (freshContext AES key)) /\
  siv.dbl (cmac.k1 (freshContext AES key)) =
  Some (cmac.k2 (freshContext AES key)).
Proof.
  split; [ apply NewCmac_value | ]. split; [ apply NewCmac_bad | ].
  cbn [freshContext cmac.k1 cmac.k2]. split.
  - rewrite dbl_value by apply cipher.encryptBlock_length. reflexivity.
  - rewrite dbl_value by apply subKey1_length. reflexivity.
Qed.

Lemma NewCmac_builds_subkeys_witness :
  cmac.NewCmac sampleAES (repeat 7 32) =
  Some (Ok (freshContext sampleAES (repeat 7 32))) /\
  cmac.NewCmac sampleAES (repeat 7 31) = Some (Err errUnsupportedKeySize).
Proof.
  split.
  - apply (proj1 (NewCmac_builds_subkeys sampleAES (repeat 7 32))).
    right; right; reflexivity.
  - apply (proj1 (proj2 (NewCmac_builds_subkeys sampleAES (repeat 7 31)))).
    unfold macKeyLength. simpl. lia.
Defined.

(** [Reset] after any sequence of writes gives back the very context
    [NewCmac] returned: nothing of the data written before survives. *)
Theorem Reset_restores_new_context (AES : list Z -> cipher.Block)
    (key : list Z) (c0 : cmac.cmac) (chunks : list (list Z)) :
  cmac.NewCmac AES key = Some (Ok c0) ->
  exists c,
    writeAll c0 chunks = Some c /\ cmac.cmac_Reset c = Some c0.
Proof.
  intros H. apply NewCmac_inv in H. destruct H as (_ & ->).
  destruct (writeAll_holds chunks _ [] (fresh_holds AES key))
    as (c & W & _ & E & K & _).
  exists c. split; [ exact W | ].
  unfold cmac.cmac_Reset. apply init_value; assumption.
Qed.

Lemma Reset_restores_new_context_witness :
  exists c,
    writeAll (freshContext sampleAES (repeat 7 16)) [[1; 2]; repeat 3 40] =
    Some c /\
    cmac.cmac_Reset c = Some (freshContext sampleAES (repeat 7 16)).
Proof.
  apply (Reset_restores_new_context sampleAES (repeat 7 16)
           (freshContext sampleAES (repeat 7 16)) [[1; 2]; repeat 3 40]).
  apply NewCmac_value. left; reflexivity.
Defined.

(** ** Seal and Open, further *)

Lemma NewCipher_bad (AES : list Z -> cipher.Block) (k : list Z) :
  ~ macKeyLength (length k) ->
  aes.NewCipher AES k = Err (KeySizeError (length k)).
Proof.
  unfold macKeyLength, aes.NewCipher. intros H.
  remember (length k) as n eqn:E. clear E.
  do 33 (destruct n as [| n]; [ try reflexivity; exfalso; apply H; lia | ]).
  reflexivity.
Qed.

Lemma s2v_invalid (AES : list Z -> cipher.Block) (k : list Z)
    (aad : list (list Z)) (pt : list Z) :
  ~ macKeyLength (length k) -> siv.s2v AES k aad pt = None.
Proof.
  intros H. unfold siv.s2v.
  destruct (length aad =? 0)%nat; now rewrite Sum_invalid.
Qed.

Lemma halves_inv (a : siv.aessiv) :
  macKeyLength (length (macKeyOf a)) ->
  macKeyLength (length (encKeyOf a)) ->
  sivKeyLength (length (siv.key a)).
Proof.
  unfold macKeyOf, encKeyOf, macKeyLength, sivKeyLength.
  rewrite length_firstn, length_skipn.
  pose proof (Nat.div_mod_eq (length (siv.key a)) 2).
  pose proof (Nat.mod_upper_bound (length (siv.key a)) 2).
  lia.
Qed.

(** [Seal] panics exactly on a key that [NewAesSIV] would refuse, and so
    does [Open] on an input of 17 bytes or more: the length check of the
    constructor is what keeps both from panicking. *)
Theorem Seal_and_Open_panic_iff_bad_key (AES : list Z -> cipher.Block)
    (a : siv.aessiv) (dst pt ct : list Z) (aad : list (list Z)) :
  (siv.SealWithMultipleAAD AES a dst pt aad = None <->
   ~ sivKeyLength (length (siv.key a))) /\
  ((17 <= length ct)%nat ->
   (siv.OpenWithMultipleAAD AES a dst ct aad = None <->
    ~ sivKeyLength (length (siv.key a)))).
Proof.
  split; [ | intros L ]; split.
  - intros H Hk. destruct (Seal_some AES a dst pt aad Hk) as (v & _ & _ & E).
    congruence.
  - intros Hk. unfold siv.SealWithMultipleAAD.
    fold (macKeyOf a). fold (encKeyOf a).
    destruct (macKeyLength_dec (length (macKeyOf a))) as [Hm | Hm];
      [ | now rewrite s2v_invalid ].
    destruct (macKeyLength_dec (length (encKeyOf a))) as [He | He];
      [ elim Hk; now apply halves_inv | ].
    destruct (siv.s2v AES (macKeyOf a) aad pt); cbn [bind]; [ | reflexivity ].
    destruct (siv.bitAnd l siv.mask); cbn [bind]; [ | reflexivity ].
    now rewrite (NewCipher_bad AES _ He).
  - intros H Hk. destruct (Open_some AES a dst ct aad Hk L) as (t & _ & _ & E).
    rewrite E in H. discriminate.
  - intros Hk. unfold siv.OpenWithMultipleAAD, siv.blockSize.
    destruct (Nat.ltb_spec (length ct) (16 + 1)) as [L' | _]; [ lia | ].
    fold (macKeyOf a). fold (encKeyOf a).
    assert (Lv : length (firstn 16 ct) = 16%nat)
      by (rewrite length_firstn; lia).
    rewrite (proj1 (bitAnd_mask (firstn 16 ct) Lv)). cbn [bind].
    destruct (macKeyLength_dec (length (encKeyOf a))) as [He | He];
      [ | now rewrite (NewCipher_bad AES _ He) ].
    rewrite (NewCipher_ok AES _ He).
    destruct (macKeyLength_dec (length (macKeyOf a))) as [Hm | Hm];
      [ elim Hk; now apply halves_inv | ].
    pose proof (ctr_run AES a (firstn 16 ct) (skipn 16 ct) Lv) as R.
    unfold bind in R |- *.
    destruct (cipher.NewCTR (AES (encKeyOf a))
                (siv.andLoop (firstn 16 ct) siv.mask)); [ | reflexivity ].
    rewrite R. now rewrite s2v_invalid.
Qed.

Lemma Seal_and_Open_panic_iff_bad_key_witness :
  siv.OpenWithMultipleAAD sampleAES {| siv.key := repeat 1 33 |} []
    (repeat 0 20) [] = None <->
  ~ sivKeyLength (length (siv.key {| siv.key := repeat 1 33 |})).
Proof.
  apply (proj2 (Seal_and_Open_panic_iff_bad_key sampleAES
                  {| siv.key := repeat 1 33 |} [] [] (repeat 0 20) [])).
  simpl. lia.
Defined.

(** Every input [Open] accepts is the sealing of the plaintext it
    returns: the output is [dst] followed by a plaintext of
    [len(ciphertext) - Overhead()] bytes, at least one, and [Seal] on that
    plaintext with the same AAD list gives the input back. *)
Theorem Open_accepts_only_sealed (AES : list Z -> cipher.Block)
    (key : list Z) (a : siv.aessiv) (dst ct out : list Z)
    (aad : list (list Z)) :
  siv.NewAesSIV key = Ok a ->
  siv.OpenWithMultipleAAD AES a dst ct aad = Some (out, None) ->
  exists pt,
    out = dst ++ pt /\
    length pt = (length ct - siv.aessiv_Overhead a)%nat /\
    (1 <= length pt)%nat /\
    siv.SealWithMultipleAAD AES a [] pt aad = Some ct.
Proof.
  intros Ha Ho. apply NewAesSIV_inv in Ha. destruct Ha as (Hk & ->).
  set (a := {| siv.key := key |}) in *.
  assert (L : (17 <= length ct)%nat).
  { destruct (Nat.lt_ge_cases (length ct) 17) as [L | L]; [ | exact L ].
    unfold siv.OpenWithMultipleAAD, siv.blockSize in Ho.
    destruct (Nat.ltb_spec (length ct) (16 + 1)); [ discriminate | lia ]. }
  destruct (Open_some AES a dst ct aad Hk L) as (t & Ht & Lt & E).
  rewrite E in Ho.
  destruct (subtle.ConstantTimeCompare t (firstn 16 ct) =? 1) eqn:C;
    [ | discriminate ].
  apply ConstantTimeCompare_eq in C. subst t.
  injection Ho as <-.
  set (c := skipn 16 ct) in *.
  set (v := firstn 16 ct) in *.
  set (pt := cipher.xorBytes c (ctrStream AES a v (length c))) in *.
  assert (Lc : length c = (length ct - 16)%nat)
    by (unfold c; apply length_skipn).
  assert (Lp : length pt = length c)
    by (apply xorBytes_length, stream_covers).
  exists pt. split; [ reflexivity | ].
  split; [ unfold siv.aessiv_Overhead, siv.blockSize; lia | ].
  split; [ lia | ].
  destruct (Seal_some AES a [] pt aad Hk) as (v' & Hv' & _ & Hs).
  assert (v' = v) as -> by congruence.
  rewrite Hs. cbn [app]. f_equal.
  rewrite Lp. unfold pt.
  rewrite xorBytes_involutive by apply stream_covers.
  apply firstn_skipn.
Qed.

Lemma Open_accepts_only_sealed_witness :
  exists pt,
    [1; 2; 3] = [] ++ pt /\
    length pt =
    Nat.sub
      (length
         [104; 13; 44; 94; 115; 40; 45; 83; 184; 188; 177; 230; 219; 80; 86;
          88; 106; 19; 50])
      (siv.aessiv_Overhead {| siv.key := repeat 3 64 |}) /\
    (1 <= length pt)%nat /\
    siv.SealWithMultipleAAD sampleAES {| siv.key := repeat 3 64 |} [] pt
      [[]; [4; 5]] =
    Some [104; 13; 44; 94; 115; 40; 45; 83; 184; 188; 177; 230; 219; 80; 86;
          88; 106; 19; 50].
Proof.
  apply (Open_accepts_only_sealed sampleAES (repeat 3 64)
           {| siv.key := repeat 3 64 |} []).
  - reflexivity.
  - vm_compute. reflexivity.
Defined.

(** Sealing is injective in the plaintext: under one key, one [dst] and
    one AAD list, two plaintexts with the same sealed output are equal. *)
Theorem Seal_injective (AES : list Z -> cipher.Block) (key : list Z)
    (a : siv.aessiv) (dst p1 p2 : list Z) (aad : list (list Z)) :
  siv.NewAesSIV key = Ok a ->
  siv.SealWithMultipleAAD AES a dst p1 aad =
  siv.SealWithMultipleAAD AES a dst p2 aad ->
  p1 = p2.
Proof.
  intros Ha E. apply NewAesSIV_inv in Ha. destruct Ha as (Hk & ->).
  set (a := {| siv.key := key |}) in *.
  destruct (Seal_some AES a dst p1 aad Hk) as (v1 & _ & L1 & S1).
  destruct (Seal_some AES a dst p2 aad Hk) as (v2 & _ & L2 & S2).
  rewrite S1, S2 in E. injection E as E.
  rewrite <- !app_assoc in E. apply app_inv_head in E.
  assert (Ev : v1 = v2).
  { apply (f_equal (firstn 16)) in E.
    rewrite !firstn_app, L1, L2, Nat.sub_diag, !firstn_O, !app_nil_r in E.
    now rewrite !firstn_all2 in E by lia. }
  subst v2. apply app_inv_head in E.
  assert (Lb : length p1 = length p2).
  { apply (f_equal (@length Z)) in E.
    now rewrite !xorBytes_length in E by apply stream_covers. }
  rewrite <- (xorBytes_involutive p1 (ctrStream AES a v1 (length p1)))
    by apply stream_covers.
  rewrite E, Lb. apply xorBytes_involutive, stream_covers.
Qed.

Lemma Seal_injective_witness : [1; 2; 3] = [1; 2; 3].
Proof.
  apply (Seal_injective sampleAES (repeat 3 64) {| siv.key := repeat 3 64 |}
           [] [1; 2; 3] [1; 2; 3] [[4]]); reflexivity.
Defined.

(** ** The test helper *)

(** [runSealOpen] never panics and never reports a plaintext mismatch:
    it returns the key-size error for a key that is not 32, 48 or 64
    bytes long, the ciphertext-length error for the empty plaintext, and
    nil for every other plaintext, whatever the AAD list. *)
Theorem runSealOpen_outcomes (AES : list Z -> cipher.Block)
    (key pt : list Z) (aad : list (list Z)) :
  (~ sivKeyLength (length key) ->
   siv_test.runSealOpen AES key pt aad =
   Some (siv_test.failed errKeySizeNotSupported)) /\
  (sivKeyLength (length key) -> pt = [] ->
   siv_test.runSealOpen AES key pt aad =
   Some (siv_test.failed errInvalidCiphertextLength)) /\
  (sivKeyLength (length key) -> pt <> [] ->
   siv_test.runSealOpen AES key pt aad = Some siv_test.passed).
Proof.
  unfold siv_test.runSealOpen. split; [ | split ].
  - intros Hk. now rewrite (NewAesSIV_bad key Hk).
  - intros Hk ->. rewrite (NewAesSIV_ok key Hk).
    destruct (Open_sealed_empty AES {| siv.key := key |} [] aad Hk)
      as (ct & -> & _ & Ho).
    cbn [bind]. rewrite Ho. reflexivity.
  - intros Hk Hp. rewrite (NewAesSIV_ok key Hk).
    destruct (roundtrip_nonempty AES {| siv.key := key |} [] pt aad Hk)
      as (ct & -> & _ & Ho); [ destruct pt; [ now elim Hp | simpl; lia ] | ].
    cbn [bind]. rewrite Ho. cbn [bind snd fst app].
    now rewrite ConstantTimeCompare_refl.
Qed.

Lemma runSealOpen_outcomes_witness :
  siv_test.runSealOpen sampleAES (repeat 0 16) [1] [] =
  Some (siv_test.failed errKeySizeNotSupported) /\
  siv_test.runSealOpen sampleAES (repeat 0 32) [] [[1]] =
  Some (siv_test.failed errInvalidCiphertextLength) /\
  siv_test.runSealOpen sampleAES (repeat 0 32) [1] [[1]] =
  Some siv_test.passed.
Proof.
  split; [ | split ].
  - apply (proj1 (runSealOpen_outcomes sampleAES (repeat 0 16) [1] [])).
    unfold sivKeyLength. simpl. lia.
  - apply (proj1 (proj2 (runSealOpen_outcomes sampleAES (repeat 0 32) []
                           [[1]]))); [ left | ]; reflexivity.
  - apply (proj2 (proj2 (runSealOpen_outcomes sampleAES (repeat 0 32) [1]
                           [[1]]))); [ left; reflexivity | discriminate ].
Defined.

(** ** Padding and xorEnd *)

Lemma Padding_form (data : list Z) :
  common.Padding data = data ++ 128 :: repeat 0 (15 - length data).
Proof.
  unfold common.Padding, common.blockSize, common.firstPaddingOctet.
  rewrite length_app. cbn [length].
  destruct (Nat.ltb_spec (length data + 1) 16) as [L | L].
  - rewrite <- app_assoc. cbn [app]. do 3 f_equal. lia.
  - replace (15 - length data)%nat with 0%nat by lia. reflexivity.
Qed.

Lemma marker_unique (a : list Z) :
  forall (b : list Z) (m k : nat),
    a ++ 128 :: repeat 0 m = b ++ 128 :: repeat 0 k -> a = b.
Proof.
  induction a as [| x a IH]; intros [| y b] m k E; cbn [app] in E.
  - reflexivity.
  - exfalso. injection E as _ E.
    assert (I : In 128 (repeat 0 m)) by (rewrite E; apply in_elt).
    apply repeat_spec in I. discriminate.
  - exfalso. injection E as _ E.
    assert (I : In 128 (repeat 0 k)) by (rewrite <- E; apply in_elt).
    apply repeat_spec in I. discriminate.
  - injection E as -> E. f_equal. exact (IH b m k E).
Qed.

(** [Padding] is unambiguous: it keeps the data in front, puts the octet
    0x80 right after it, fills with zeros up to 16 bytes (none when the
    data has 15 bytes or more), and two different inputs never pad to the
    same bytes. *)
Theorem Padding_is_injective (a b : list Z) :
  common.Padding a = a ++ 128 :: repeat 0 (15 - length a) /\
  length (common.Padding a) = Nat.max 16 (S (length a)) /\
  (common.Padding a = common.Padding b -> a = b).
Proof.
  split; [ apply Padding_form | ]. split.
  - rewrite Padding_form, length_app. cbn [length]. rewrite repeat_length. lia.
  - rewrite !Padding_form. apply marker_unique.
Qed.

Lemma xorLoop_involutive (a b : list Z) :
  length a = length b ->
  common.xorLoop (common.xorLoop a b) b = a.
Proof.
  revert b. induction a as [| x a IH]; intros [| y b] H; simpl in *;
    try reflexivity; try discriminate.
  rewrite lxor_involutive. f_equal. apply IH. now injection H.
Qed.

(** [xorEnd] panics exactly when [b] is longer than [a]; otherwise the
    result has the length of [a], agrees with [a] before the last
    [len(b)] bytes, and applying [xorEnd] with the same [b] again gives
    [a] back. *)
Theorem xorEnd_patches_the_tail (a b : list Z) :
  ((length a < length b)%nat -> siv.xorEnd a b = None) /\
  ((length b <= length a)%nat ->
   exists r,
     siv.xorEnd a b = Some r /\ length r = length a /\
     firstn (length a - length b) r = firstn (length a - length b) a /\
     siv.xorEnd r b = Some a).
Proof.
  split.
  - intros L. unfold siv.xorEnd.
    destruct (Nat.ltb_spec (length a) (length b)); [ reflexivity | lia ].
  - intros L. rewrite (xorEnd_slices a b L).
    set (off := (length a - length b)%nat).
    assert (Ls : length (skipn off a) = length b)
      by (rewrite length_skipn; unfold off; lia).
    assert (Lf : length (firstn off a) = off)
      by (rewrite length_firstn; unfold off; lia).
    assert (Lr : length (firstn off a ++ common.xorLoop (skipn off a) b)
                 = length a)
      by (rewrite length_app, Lf, xorLoop_length, Ls by exact Ls;
          unfold off; lia).
    eexists. split; [ reflexivity | ]. split; [ exact Lr | ].
    split.
    + rewrite firstn_app, Lf, Nat.sub_diag, firstn_O, app_nil_r.
      apply firstn_all2. lia.
    + rewrite xorEnd_slices by lia. rewrite Lr. fold off. f_equal.
      rewrite firstn_app, Lf, Nat.sub_diag, firstn_O, app_nil_r.
      rewrite (firstn_all2 (firstn off a)) by lia.
      rewrite skipn_app, Lf, Nat.sub_diag, skipn_O.
      rewrite (skipn_all2 (firstn off a)) by lia. cbn [app].
      rewrite xorLoop_involutive by exact Ls. apply firstn_skipn.
Qed.

Lemma xorEnd_patches_the_tail_witness :
  siv.xorEnd [1; 2] [1; 2; 3] = None /\
  exists r,
    siv.xorEnd [1; 2; 3] [5; 6] = Some r /\ length r = 3%nat /\
    firstn (3 - 2) r = firstn (3 - 2) [1; 2; 3] /\
    siv.xorEnd r [5; 6] = Some [1; 2; 3].
Proof.
  split.
  - apply (proj1 (xorEnd_patches_the_tail [1; 2] [1; 2; 3])). simpl. lia.
  - apply (proj2 (xorEnd_patches_the_tail [1; 2; 3] [5; 6])). simpl. lia.
Defined.

Lemma Padding_is_injective_witness :
  length (common.Padding [1; 2]) = Nat.max 16 (S (length [1; 2])) /\
  [1; 2] = [1; 2].
Proof.
  split.
  - exact (proj1 (proj2 (Padding_is_injective [1; 2] [1; 2]))).
  - exact (proj2 (proj2 (Padding_is_injective [1; 2] [1; 2])) eq_refl).
Defined.

(** ** The blocks as 128-bit numbers *)

Section Values.

Lemma pow256 (n : nat) : 256 ^ Z.of_nat n = 2 ^ (8 * Z.of_nat n).
Proof. change 256 with (2 ^ 8). rewrite <- Z.pow_mul_r by lia. reflexivity. Qed.

Lemma pow256_pos (n : nat) : 0 < 256 ^ Z.of_nat n.
Proof. apply Z.pow_pos_nonneg; lia. Qed.

Lemma pow256_succ (n : nat) :
  256 ^ Z.of_nat (S n) = 256 * 256 ^ Z.of_nat n.
Proof. rewrite Nat2Z.inj_succ, Z.pow_succ_r by lia. reflexivity. Qed.

Lemma beValue_bound (l : list Z) :
  Forall isByte l -> 0 <= beValue l < 256 ^ Z.of_nat (length l).
Proof.
  induction 1 as [| x l Hx Hl IH]; cbn [beValue length].
  - simpl. lia.
  - rewrite pow256_succ. unfold isByte in Hx.
    pose proof (pow256_pos (length l)). nia.
Qed.

Lemma byte_high_bits (x i : Z) :
  isByte x -> 8 <= i -> Z.testbit x i = false.
Proof.
  intros Hx Hi. rewrite <- (Z.mod_small x (2 ^ 8)) by exact Hx.
  rewrite Z.testbit_mod_pow2 by lia.
  destruct (Z.ltb_spec i 8); [ lia | reflexivity ].
Qed.

Lemma isByte_of_bits (x : Z) :
  0 <= x -> (forall i, 8 <= i -> Z.testbit x i = false) -> isByte x.
Proof.
  intros H0 H. unfold isByte.
  assert (E : x = x mod 2 ^ 8).
  { apply Z.bits_inj'. intros n Hn. rewrite Z.testbit_mod_pow2 by lia.
    destruct (Z.ltb_spec n 8); [ reflexivity | now rewrite H ]. }
  rewrite E. apply Z.mod_pos_bound. reflexivity.
Qed.

Lemma lxor_isByte (x y : Z) : isByte x -> isByte y -> isByte (Z.lxor x y).
Proof.
  intros Hx Hy. apply isByte_of_bits.
  - apply Z.lxor_nonneg. unfold isByte in *. split; lia.
  - intros i Hi. now rewrite Z.lxor_spec, !byte_high_bits.
Qed.

Lemma xorLoop_isByte (a : list Z) :
  forall b, Forall isByte a -> Forall isByte b ->
            Forall isByte (common.xorLoop a b).
Proof.
  induction a as [| x a IH]; intros [| y b] Ha Hb; simpl; auto.
  inversion Ha; inversion Hb; subst.
  constructor; [ now apply lxor_isByte | now apply IH ].
Qed.

(** The bits of a number written as a high part and a low part. *)
Lemma split_bits (x r k i : Z) :
  0 <= k -> 0 <= r < 2 ^ k -> 0 <= i ->
  Z.testbit (x * 2 ^ k + r) i =
  if i <? k then Z.testbit r i else Z.testbit x (i - k).
Proof.
  intros Hk Hr Hi. destruct (Z.ltb_spec i k) as [L | L].
  - rewrite <- (Z.mod_pow2_bits_low (x * 2 ^ k + r) k i) by lia.
    rewrite Z.add_comm, Z.mod_add by lia.
    now rewrite Z.mod_small by exact Hr.
  - replace i with ((i - k) + k) at 1 by lia.
    rewrite <- Z.div_pow2_bits by lia.
    rewrite Z.add_comm, Z.div_add by lia.
    now rewrite Z.div_small, Z.add_0_l by exact Hr.
Qed.

Lemma lxor_split (x y va vb k : Z) :
  0 <= k -> 0 <= va < 2 ^ k -> 0 <= vb < 2 ^ k ->
  0 <= Z.lxor va vb < 2 ^ k ->
  Z.lxor (x * 2 ^ k + va) (y * 2 ^ k + vb) =
  Z.lxor x y * 2 ^ k + Z.lxor va vb.
Proof.
  intros Hk Ha Hb Hx. apply Z.bits_inj'. intros i Hi.
  rewrite Z.lxor_spec, !split_bits by assumption.
  destruct (i <? k); now rewrite Z.lxor_spec.
Qed.

Lemma xorLoop_value (a : list Z) :
  forall b,
    length a = length b -> Forall isByte a -> Forall isByte b ->
    beValue (common.xorLoop a b) = Z.lxor (beValue a) (beValue b).
Proof.
  induction a as [| x a IH]; intros [| y b] L Ha Hb; simpl in L;
    try discriminate; [ reflexivity | ].
  injection L as L. inversion Ha; inversion Hb; subst.
  cbn [common.xorLoop beValue].
  rewrite xorLoop_length by exact L. rewrite <- L.
  rewrite (IH b L) by assumption.
  rewrite !pow256. symmetry. apply lxor_split.
  - lia.
  - rewrite <- pow256. now apply beValue_bound.
  - rewrite <- pow256, L. now apply beValue_bound.
  - rewrite <- (IH b L) by assumption.
    rewrite <- pow256, <- (xorLoop_length a b L).
    apply beValue_bound. now apply xorLoop_isByte.
Qed.

(** One byte of [ShiftLeft] as arithmetic. *)
Lemma shift_byte_value (x : Z) (c : bool) :
  isByte x ->
  Z.lor ((Z.shiftl x 1) mod 256) (Z.b2z c) = (2 * x) mod 256 + Z.b2z c.
Proof.
  intros Hx.
  assert (N : Z.land ((Z.shiftl x 1) mod 256) (Z.b2z c) = 0).
  { apply Z.bits_inj'. intros n Hn.
    rewrite Z.land_spec, shl_byte_bits, b2z_bits, Z.testbit_0_l by lia.
    destruct (Z.eqb_spec n 0) as [-> | _].
    - rewrite Z.testbit_neg_r by lia. reflexivity.
    - now rewrite andb_false_r. }
  rewrite <- (Z.lxor_lor _ _ N), <- (Z.add_nocarry_lxor _ _ N).
  rewrite Z.shiftl_mul_pow2 by lia. change (2 ^ 1) with 2.
  now rewrite Z.mul_comm.
Qed.

Lemma top_bit_value (x : Z) :
  isByte x -> Z.b2z (Z.testbit x 7) = x / 128.
Proof.
  intros Hx. rewrite Z.testbit_spec' by lia. change (2 ^ 7) with 128.
  apply Z.mod_small. unfold isByte in Hx.
  split; [ apply Z.div_pos; lia | apply Z.div_lt_upper_bound; lia ].
Qed.

Lemma shiftLoop_value (data : list Z) :
  Forall isByte data ->
  beValue (fst (common.shiftLoop data))
  + snd (common.shiftLoop data) * 256 ^ Z.of_nat (length data)
  = 2 * beValue data /\
  Forall isByte (fst (common.shiftLoop data)).
Proof.
  induction 1 as [| x rest Hx Hrest IH]; [ simpl; auto | ].
  cbn [common.shiftLoop].
  pose proof (shiftLoop_carry rest) as C.
  pose proof (shiftLoop_length rest) as L.
  destruct (common.shiftLoop rest) as [r bit]. cbn [fst snd] in *.
  subst bit. destruct IH as (V & B).
  rewrite carry_bit, shift_byte_value, top_bit_value by exact Hx.
  cbn [beValue length]. rewrite L, pow256_succ.
  assert (Ev : (2 * x) mod 256 = 2 * (x mod 128))
    by (change 256 with (2 * 128); apply Z.mul_mod_distr_l; lia).
  pose proof (Z.div_mod x 128 ltac:(lia)) as Dm.
  pose proof (Z.mod_pos_bound x 128 ltac:(lia)) as Mb.
  split.
  - set (P := 256 ^ Z.of_nat (length rest)) in *.
    rewrite Ev.
    replace (2 * (x * P + beValue rest))
      with (2 * (128 * (x / 128) + x mod 128) * P + 2 * beValue rest)
      by (rewrite <- Dm; ring).
    rewrite <- V. ring.
  - constructor; [ | exact B ].
    unfold isByte. rewrite Ev. destruct (carryOf rest); cbn [Z.b2z]; lia.
Qed.

End Values.

(** [ShiftLeft] is the doubling of the big-endian number the bytes
    spell, modulo 2^(8 len): the bit that leaves the first byte is lost. *)
Theorem ShiftLeft_doubles (data : list Z) :
  Forall isByte data ->
  beValue (common.ShiftLeft data) =
  (2 * beValue data) mod 256 ^ Z.of_nat (length data) /\
  length (common.ShiftLeft data) = length data /\
  Forall isByte (common.ShiftLeft data).
Proof.
  intros H. destruct (shiftLoop_value data H) as (V & B).
  pose proof (ShiftLeft_length data) as L.
  fold (common.ShiftLeft data) in V, B.
  split; [ | split; assumption ].
  pose proof (beValue_bound _ B) as Bd. rewrite L in Bd.
  rewrite <- V, Z.mod_add by (pose proof (pow256_pos (length data)); lia).
  symmetry. now apply Z.mod_small.
Qed.

Lemma ShiftLeft_doubles_witness :
  beValue (common.ShiftLeft [200; 1]) =
  (2 * beValue [200; 1]) mod 256 ^ Z.of_nat (length [200; 1]) /\
  length (common.ShiftLeft [200; 1]) = length [200; 1] /\
  Forall isByte (common.ShiftLeft [200; 1]).
Proof.
  apply (ShiftLeft_doubles [200; 1]).
  repeat constructor; unfold isByte; lia.
Defined.

(** [Xor] panics exactly on slices of different lengths; on bytes it is
    the XOR of the two big-endian numbers, and its result is bytes. *)
Theorem Xor_is_xor_of_values (a b : list Z) :
  (length a <> length b -> common.Xor a b = None) /\
  (length a = length b -> Forall isByte a -> Forall isByte b ->
   exists r,
     common.Xor a b = Some r /\ length r = length a /\
     Forall isByte r /\
     beValue r = Z.lxor (beValue a) (beValue b)).
Proof.
  split.
  - intros H. unfold common.Xor.
    destruct (Nat.eqb_spec (length a) (length b)); [ contradiction | reflexivity ].
  - intros L Ha Hb. exists (common.xorLoop a b).
    split; [ now apply Xor_some | ].
    split; [ now apply xorLoop_length | ].
    split; [ now apply xorLoop_isByte | now apply xorLoop_value ].
Qed.

Lemma Xor_is_xor_of_values_witness :
  common.Xor [1] [1; 2] = None /\
  exists r,
    common.Xor [1; 255] [3; 15] = Some r /\ length r = length [1; 255] /\
    Forall isByte r /\
    beValue r = Z.lxor (beValue [1; 255]) (beValue [3; 15]).
Proof.
  split.
  - apply (proj1 (Xor_is_xor_of_values [1] [1; 2])). discriminate.
  - apply (proj2 (Xor_is_xor_of_values [1; 255] [3; 15])).
    + reflexivity.
    + repeat constructor; unfold isByte; lia.
    + repeat constructor; unfold isByte; lia.
Defined.

(** [dbl] on a 16-byte block is the doubling in GF(2^128): the number is
    doubled, and when its top bit was set the bit that leaves is dropped
    and 0x87 is XORed in. *)
Theorem dbl_is_field_doubling (d : list Z) :
  length d = 16%nat -> Forall isByte d ->
  exists r,
    siv.dbl d = Some r /\ length r = 16%nat /\ Forall isByte r /\
    beValue r =
    if beValue d <? 2 ^ 127 then 2 * beValue d
    else Z.lxor (2 * beValue d - 2 ^ 128) 135.
Proof.
  intros L H. rewrite (dbl_value d L).
  exists (dblBytes d). split; [ reflexivity | ].
  split; [ now apply dblBytes_length | ].
  destruct (shiftLoop_value d H) as (V & B).
  fold (common.ShiftLeft d) in V, B.
  rewrite shiftLoop_carry, L in V.
  change (256 ^ Z.of_nat 16) with (2 ^ 128) in V.
  pose proof (beValue_bound _ B) as Bd.
  rewrite ShiftLeft_length, L in Bd.
  change (256 ^ Z.of_nat 16) with (2 ^ 128) in Bd.
  assert (Hrb : Forall isByte siv.rb)
    by (repeat constructor; unfold isByte; lia).
  assert (P : 2 ^ 128 = 2 * 2 ^ 127) by reflexivity.
  unfold dblBytes. destruct (carryOf d); cbn [Z.b2z] in V.
  - split; [ now apply xorLoop_isByte | ].
    rewrite xorLoop_value
      by (try assumption; rewrite ShiftLeft_length; exact L).
    change (beValue siv.rb) with 135.
    destruct (Z.ltb_spec (beValue d) (2 ^ 127)) as [Lt | Ge]; [ lia | ].
    f_equal. lia.
  - split; [ exact B | ].
    destruct (Z.ltb_spec (beValue d) (2 ^ 127)) as [Lt | Ge]; lia.
Qed.

Lemma dbl_is_field_doubling_witness :
  exists r,
    siv.dbl (repeat 200 16) = Some r /\ length r = 16%nat /\
    Forall isByte r /\
    beValue r =
    if beValue (repeat 200 16) <? 2 ^ 127 then 2 * beValue (repeat 200 16)
    else Z.lxor (2 * beValue (repeat 200 16) - 2 ^ 128) 135.
Proof.
  apply (dbl_is_field_doubling (repeat 200 16)).
  - reflexivity.
  - repeat constructor; unfold isByte; lia.
Defined.

(** ** The bits the mask drops are still authenticated *)

(** A sealed output whose synthetic vector is replaced by a different one
    with the same masked IV decrypts to the same plaintext, and [Open]
    rejects it with the integrity error: the two bits that the mask clears
    cannot be flipped unnoticed. *)
Theorem masked_bits_are_authenticated (AES : list Z -> cipher.Block)
    (key : list Z) (a : siv.aessiv) (dst pt v v' body : list Z)
    (aad : list (list Z)) :
  siv.NewAesSIV key = Ok a ->
  (1 <= length pt)%nat ->
  length v = 16%nat -> length v' = 16%nat ->
  siv.SealWithMultipleAAD AES a [] pt aad = Some (v ++ body) ->
  v' <> v ->
  siv.bitAnd v' siv.mask = siv.bitAnd v siv.mask ->
  siv.OpenWithMultipleAAD AES a dst (v' ++ body) aad =
  Some ([], Some errIntegrityError).
Proof.
  intros Ha Hp Lv Lv' Hs Hne Hm.
  apply NewAesSIV_inv in Ha. destruct Ha as (Hk & ->).
  set (a := {| siv.key := key |}) in *.
  destruct (Seal_some AES a [] pt aad Hk) as (v0 & Hv0 & L0 & S0).
  rewrite S0 in Hs. cbn [app] in Hs. injection Hs as Hs.
  assert (Ev : v0 = v).
  { apply (f_equal (firstn 16)) in Hs.
    rewrite !firstn_app, L0, Lv, Nat.sub_diag, !firstn_O, !app_nil_r in Hs.
    now rewrite !firstn_all2 in Hs by lia. }
  subst v0. apply app_inv_head in Hs.
  assert (Lb : length body = length pt)
    by (rewrite <- Hs; apply xorBytes_length, stream_covers).
  rewrite (proj1 (bitAnd_mask v' Lv')), (proj1 (bitAnd_mask v Lv)) in Hm.
  injection Hm as Hm.
  destruct (Open_some AES a dst (v' ++ body) aad Hk) as (t & Ht & _ & Ho);
    [ rewrite length_app; lia | ].
  assert (F : firstn 16 (v' ++ body) = v').
  { rewrite firstn_app, Lv', Nat.sub_diag, firstn_O, app_nil_r.
    apply firstn_all2. lia. }
  assert (S : skipn 16 (v' ++ body) = body).
  { rewrite skipn_app, Lv', Nat.sub_diag, skipn_O.
    rewrite skipn_all2 by lia. reflexivity. }
  rewrite F, S in Ho, Ht.
  assert (P : cipher.xorBytes body (ctrStream AES a v' (length body)) = pt).
  { unfold ctrStream. rewrite Hm. fold (ctrStream AES a v (length body)).
    rewrite Lb, <- Hs. apply xorBytes_involutive, stream_covers. }
  rewrite P in Ht. assert (t = v) as -> by congruence.
  rewrite Ho.
  destruct (subtle.ConstantTimeCompare v v' =? 1) eqn:C; [ | reflexivity ].
  apply ConstantTimeCompare_eq in C. now elim Hne.
Qed.

Lemma masked_bits_are_authenticated_witness :
  siv.OpenWithMultipleAAD sampleAES {| siv.key := repeat 3 64 |} []
    ([104; 13; 44; 94; 115; 40; 45; 83; 56; 188; 177; 230; 219; 80; 86; 88]
     ++ [106; 19; 50]) [[]; [4; 5]] =
  Some ([], Some errIntegrityError).
Proof.
  apply (masked_bits_are_authenticated sampleAES (repeat 3 64)
           {| siv.key := repeat 3 64 |} [] [1; 2; 3]
           [104; 13; 44; 94; 115; 40; 45; 83; 184; 188; 177; 230; 219; 80;
            86; 88]).
  - reflexivity.
  - simpl. lia.
  - reflexivity.
  - reflexivity.
  - vm_compute. reflexivity.
  - discriminate.
  - reflexivity.
Defined.

(** ** What Write retains *)

Lemma retained_step (L q : nat) :
  (1 <= q)%nat ->
  (if ((retained L + q) / 16 <=? 1)%nat then (retained L + q)%nat
   else (retained L + q - 16 * ((retained L + q) / 16 - 1))%nat)
  = retained (L + q).
Proof.
  intros Hq. unfold retained.
  pose proof (Nat.div_mod_eq L 16). pose proof (Nat.mod_upper_bound L 16).
  pose proof (Nat.div_mod_eq (L + q) 16).
  pose proof (Nat.mod_upper_bound (L + q) 16).
  destruct (Nat.ltb_spec L 32), (Nat.ltb_spec (L + q) 32); try lia.
  - destruct (Nat.leb_spec ((L + q) / 16) 1); lia.
  - destruct (Nat.leb_spec ((L + q) / 16) 1); lia.
  - pose proof (Nat.div_mod_eq (16 + L mod 16 + q) 16).
    pose proof (Nat.mod_upper_bound (16 + L mod 16 + q) 16).
    destruct (Nat.leb_spec ((16 + L mod 16 + q) / 16) 1); lia.
Qed.

Lemma Write_retained (c : cmac.cmac) (D p : list Z) :
  holds c D ->
  length (cmac.accumulator c) = retained (length D) ->
  exists c',
    cmac.cmac_Write c p = Some (c', (length p, None)) /\
    holds c' (D ++ p) /\
    length (cmac.accumulator c') = retained (length (D ++ p)).
Proof.
  intros H R.
  destruct (Write_holds c D p H) as (c' & W & H' & _).
  exists c'. split; [ exact W | ]. split; [ exact H' | ].
  destruct H as ((Hs & _) & Hf & _).
  destruct p as [| x p].
  - unfold cmac.cmac_Write in W. rewrite Hf in W. cbn [length Nat.eqb] in W.
    injection W as <-. now rewrite app_nil_r.
  - rewrite length_app, <- retained_step by (simpl; lia). rewrite <- R.
    unfold cmac.cmac_Write in W. rewrite Hf in W.
    cbn [length Nat.eqb cmac.accumulator cmac.set_accumulator
         cmac.set_hadData] in W.
    unfold cmac.blockSize in W. rewrite length_app in W.
    cbn [length] in W |- *.
    set (m := (length (cmac.accumulator c) + S (length p))%nat) in *.
    destruct (Nat.leb_spec (m / 16) 1) as [Le | Gt].
    + injection W as <-. cbn [cmac.accumulator cmac.set_accumulator].
      rewrite length_app. reflexivity.
    + set (c0 := cmac.set_accumulator _ _) in W.
      pose proof (Nat.div_mod_eq m 16). pose proof (Nat.mod_upper_bound m 16).
      assert (Lc0 : length (cmac.accumulator c0) = m)
        by (subst c0; cbn [cmac.accumulator cmac.set_accumulator];
            rewrite length_app; reflexivity).
      destruct (writeLoop_some (m / 16 - 1) c0) as (c1 & Hrun & _ & _ & Ha1);
        [ exact Hs | lia | ].
      rewrite Hrun in W. cbn [bind] in W. injection W as <-.
      rewrite Ha1, length_skipn, Lc0. reflexivity.
Qed.

(** After any sequence of writes to a new context, the context retains
    every byte while fewer than 32 were written, and from then on exactly
    one full block plus the bytes past the last block boundary: the last
    block, full or partial, is never chained before [Sum]. *)
Theorem Write_retains_last_block (AES : list Z -> cipher.Block)
    (key : list Z) (c0 : cmac.cmac) (chunks : list (list Z)) :
  cmac.NewCmac AES key = Some (Ok c0) ->
  exists c,
    writeAll c0 chunks = Some c /\
    length (cmac.accumulator c) = retained (length (concat chunks)) /\
    cmac.accumulator c =
    skipn (length (concat chunks) - retained (length (concat chunks)))
      (concat chunks).
Proof.
  intros H0. apply NewCmac_inv in H0. destruct H0 as (_ & ->).
  assert (G : forall (l : list (list Z)) (c : cmac.cmac) (D : list Z),
             holds c D ->
             length (cmac.accumulator c) = retained (length D) ->
             exists c',
               writeAll c l = Some c' /\ holds c' (D ++ concat l) /\
               length (cmac.accumulator c') = retained (length (D ++ concat l))).
  { induction l as [| p l IH]; intros c D H R.
    - exists c. cbn [writeAll concat]. rewrite app_nil_r. auto.
    - destruct (Write_retained c D p H R) as (c1 & W & H1 & R1).
      destruct (IH c1 (D ++ p) H1 R1) as (c' & W' & H' & R').
      exists c'. cbn [writeAll concat]. rewrite W. cbn [bind snd fst].
      rewrite app_assoc. auto. }
  destruct (G chunks (freshContext AES key) [] (fresh_holds AES key) eq_refl)
    as (c & W & Hc & R).
  cbn [app] in Hc, R. exists c. split; [ exact W | ]. split; [ exact R | ].
  destruct Hc as (_ & _ & n & Hn & Ha & _).
  rewrite Ha. f_equal.
  rewrite Ha, length_skipn in R. lia.
Qed.

Lemma Write_retains_last_block_witness :
  exists c,
    writeAll (freshContext sampleAES (repeat 7 16)) [repeat 1 20; repeat 2 30]
    = Some c /\
    length (cmac.accumulator c) =
    retained (length (concat [repeat 1 20; repeat 2 30])) /\
    cmac.accumulator c =
    skipn (length (concat [repeat 1 20; repeat 2 30])
           - retained (length (concat [repeat 1 20; repeat 2 30])))
      (concat [repeat 1 20; repeat 2 30]).
Proof.
  apply (Write_retains_last_block sampleAES (repeat 7 16)).
  apply NewCmac_value. left; reflexivity.
Defined.
